(** * Quantum-Inspired Reed-Solomon Encoding: a shallow embedding of [app.py]

    The script has three computational sections.  Section 1 computes the
    Singleton distance [d = n - k + 1]; Section 2 parses a comma separated
    text into integer coefficients, renders the polynomial and evaluates it
    at the points [1 .. len+2]; Section 3 builds a fixed circuit and runs it
    for 1024 shots.  Python [int] is unbounded, so integers are [Z]. *)

From Stdlib Require Import ZArith String Ascii List Lia DecimalString DecimalPos.
From stdpp Require Import base option list strings gmap fin_maps.

Local Open Scope Z_scope.

(** ** Python primitives used by the script *)

Module Py.

(** [range(start, stop)] on integers. *)
Definition range (start stop : Z) : list Z :=
  (λ j : nat, start + Z.of_nat j) <$> seq 0 (Z.to_nat (stop - start)).

(** [len(l)]. *)
Definition len {A} (l : list A) : Z := Z.of_nat (length l).

(** [l[i]]: a negative index counts from the end, an index out of range
    raises [IndexError] (here [None]). *)
Definition getitem {A} (l : list A) (i : Z) : option A :=
  if decide (0 ≤ i < len l) then l !! Z.to_nat i
  else if decide (- len l ≤ i < 0) then l !! Z.to_nat (len l + i)
  else None.

(** [str.isspace] on one character.  A text is modelled as a sequence of
    characters with code points below 256; the white space among them is
    TAB, LF, VT, FF, CR, FS, GS, RS, US, SPACE, NEL and NBSP. *)
Definition isspace (c : ascii) : bool :=
  let n := nat_of_ascii c in
  ((9 <=? n) && (n <=? 13) || (28 <=? n) && (n <=? 32)
   || (n =? 133) || (n =? 160))%nat.

(** [s.split(sep)] for a one character separator: the pieces between the
    separators, empty pieces included; never the empty list. *)
Fixpoint split (sep : ascii) (s : string) : list string :=
  match s with
  | EmptyString => [EmptyString]
  | String c r =>
      if Ascii.eqb c sep then EmptyString :: split sep r
      else match split sep r with
           | t :: ts => String c t :: ts
           | [] => [String c EmptyString]
           end
  end.

Fixpoint lstrip (s : string) : string :=
  match s with
  | EmptyString => EmptyString
  | String c r => if isspace c then lstrip r else s
  end.

Fixpoint rstrip (s : string) : string :=
  match s with
  | EmptyString => EmptyString
  | String c r =>
      match rstrip r with
      | EmptyString => if isspace c then EmptyString else String c EmptyString
      | r' => String c r'
      end
  end.

(** [s.strip()] *)
Definition strip (s : string) : string := rstrip (lstrip s).

Definition digit_value (c : ascii) : option Z :=
  let n := nat_of_ascii c in
  if ((48 <=? n) && (n <=? 57))%nat then Some (Z.of_nat n - 48) else None.

(** The digit scan of [int]: decimal digits, where one underscore may
    stand between two digits.  [prev_digit] tells whether the character
    just read was a digit; the scan must end on one. *)
Fixpoint int_digits (s : string) (acc : Z) (prev_digit : bool) : option Z :=
  match s with
  | EmptyString => if prev_digit then Some acc else None
  | String c r =>
      match digit_value c with
      | Some v => int_digits r (10 * acc + v) true
      | None =>
          if Ascii.eqb c "_" && prev_digit then int_digits r acc false
          else None
      end
  end.

(** The interpreter's limit on the number of digits of a conversion
    between text and integer, at its default
    ([sys.get_int_max_str_digits()]). *)
Definition max_str_digits : nat := 4300.

(** The number of decimal digits in a text. *)
Fixpoint count_digits (s : string) : nat :=
  match s with
  | EmptyString => 0
  | String c r =>
      (match digit_value c with Some _ => 1 | None => 0 end + count_digits r)%nat
  end.

(** [int(s)] in base ten: surrounding white space is skipped, then an
    optional sign, then the digits; anything else raises [ValueError]
    (here [None]), and so does a numeral of more than [max_str_digits]
    digits, leading zeros counted. *)
Definition int (s : string) : option Z :=
  if (count_digits (strip s) <=? max_str_digits)%nat then
    match strip s with
    | String c r =>
        if Ascii.eqb c "+" then int_digits r 0 false
        else if Ascii.eqb c "-" then Z.opp <$> int_digits r 0 false
        else int_digits (String c r) 0 false
    | EmptyString => None
    end
  else None.

(** The decimal notation of an integer: its digits, a minus sign before
    a negative one.  It is the text of [str(z)] whenever [str(z)] returns;
    see [fmt] for the conversion the interpreter performs.  The script
    applies it directly only to numbers that cannot reach the digit limit:
    the value of a [number_input] control and the index of a list. *)
Definition str (z : Z) : string := NilZero.string_of_int (Z.to_int z).

(** An integer whose decimal notation has at most [max_str_digits]
    digits. *)
Definition fits (z : Z) : Prop := (count_digits (str z) ≤ max_str_digits)%nat.

(** [str(z)], also as an f-string field [{z}] or inside the [repr] of a
    list: the decimal notation, but [ValueError] (here [None]) for an
    integer of more than [max_str_digits] digits. *)
Definition fmt (z : Z) : option string :=
  if (count_digits (str z) <=? max_str_digits)%nat then Some (str z) else None.

(** [sep.join(parts)] *)
Fixpoint join (sep : string) (parts : list string) : string :=
  match parts with
  | [] => EmptyString
  | [p] => p
  | p :: rest => p +:+ sep +:+ join sep rest
  end.

(** The text of a list of integers: the notations of its elements
    between brackets, separated by a comma and a space. *)
Definition str_list (l : list Z) : string :=
  "[" +:+ join ", " (str <$> l) +:+ "]".

(** [str(l)] of a list of integers, as the f-string field [{l}] renders
    it: every element is converted in turn, so it raises as soon as one
    element has too many digits. *)
Definition fmt_list (l : list Z) : option string :=
  texts ← mapM fmt l; Some ("[" +:+ join ", " texts +:+ "]").

(** [sum(xs)]: a left fold of [+] that starts at [0]. *)
Definition sum (xs : list Z) : Z := foldl Z.add 0 xs.

(** [x ** i] on integers, for the non-negative exponents the script uses. *)
Definition pow (x i : Z) : Z := x ^ i.

End Py.

(** ** Section 1: the distance calculator *)

(** The bounds the two [st.number_input] controls are created with:
    [min_value=2] for [n]; [min_value=1, max_value=n-1] for [k]. *)
Definition n_accepted (n : Z) : bool := 2 <=? n.
Definition k_accepted (n k : Z) : bool := (1 <=? k) && (k <=? n - 1).

(** [d = n - k + 1] *)
Definition d (n k : Z) : Z := n - k + 1.

(** ** Section 2: the polynomial code word *)

(** [eval_points = list(range(1, len(message) + 3))] *)
Definition eval_points (message : list Z) : list Z :=
  Py.range 1 (Py.len message + 3).

(** [val = sum(message[i] * (x ** i) for i in range(len(message)))] *)
Definition val (message : list Z) (x : Z) : option Z :=
  terms ← mapM (λ i, a ← Py.getitem message i; Some (a * Py.pow x i))
               (Py.range 0 (Py.len message));
  Some (Py.sum terms).

(** The loop [for x in eval_points: ...; codeword.append(val)], started
    from [codeword = []]. *)
Fixpoint codeword_loop (message : list Z) (points : list Z)
    (codeword : list Z) : option (list Z) :=
  match points with
  | [] => Some codeword
  | x :: rest =>
      v ← val message x;
      codeword_loop message rest (codeword ++ [v])
  end.

Definition codeword (message : list Z) : option (list Z) :=
  codeword_loop message (eval_points message) [].


(** ** Section 3: the circuit *)

(** The gates the script applies, on resolved bit indices. *)
Inductive instruction : Type :=
  | H (qubit : nat)
  | CX (control target : nat)
  | Measure (qubit clbit : nat).

(** [QuantumCircuit]: the sizes of its two registers and its instruction
    list [data], to which every gate call appends. *)
Record QuantumCircuit : Type := mkCircuit {
  num_qubits : nat;
  num_clbits : nat;
  data : list instruction
}.

Module Qiskit.

(** [QuantumCircuit(nq, nc)]; a negative size raises. *)
Definition new (nq nc : Z) : option QuantumCircuit :=
  if decide (0 ≤ nq ∧ 0 ≤ nc) then Some (mkCircuit (Z.to_nat nq) (Z.to_nat nc) [])
  else None.

(** An integer bit specifier indexes the register like a list. *)
Definition qubit (qc : QuantumCircuit) (i : Z) : option nat :=
  Py.getitem (seq 0 (num_qubits qc)) i.
Definition clbit (qc : QuantumCircuit) (i : Z) : option nat :=
  Py.getitem (seq 0 (num_clbits qc)) i.

Definition append (instr : instruction) (qc : QuantumCircuit) : QuantumCircuit :=
  mkCircuit (num_qubits qc) (num_clbits qc) (data qc ++ [instr]).

(** [qc.h(i)] *)
Definition h (i : Z) (qc : QuantumCircuit) : option QuantumCircuit :=
  q ← qubit qc i; Some (append (H q) qc).

(** [qc.cx(c, t)]; control and target must differ. *)
Definition cx (c t : Z) (qc : QuantumCircuit) : option QuantumCircuit :=
  c' ← qubit qc c; t' ← qubit qc t;
  if decide (c' = t') then None else Some (append (CX c' t') qc).

(** [qc.measure(qs, cs)]: one measurement per pair, in order; a single
    qubit is paired with every classical bit; other shapes raise. *)
Definition measure (qs cs : list Z) (qc : QuantumCircuit) : option QuantumCircuit :=
  qs' ← mapM (qubit qc) qs; cs' ← mapM (clbit qc) cs;
  if decide (length qs' = length cs') then
    Some (foldl (λ acc qc, append (Measure qc.1 qc.2) acc) qc (zip qs' cs'))
  else match qs' with
       | [q] => Some (foldl (λ acc c, append (Measure q c) acc) qc cs')
       | _ => None
       end.

End Qiskit.

(** A [for] loop whose body updates the circuit and may raise. *)
Fixpoint for_each {A S} (xs : list A) (body : A → S → option S) (s : S) : option S :=
  match xs with
  | [] => Some s
  | x :: rest => s' ← body x s; for_each rest body s'
  end.

(** Lines 112-122: the circuit of the third section. *)
Definition build_circuit (num_qubits : Z) : option QuantumCircuit :=
  qc ← Qiskit.new num_qubits num_qubits;
  qc ← for_each (Py.range 0 num_qubits) Qiskit.h qc;
  qc ← for_each (Py.range 0 (num_qubits - 1)) (λ i, Qiskit.cx i (i + 1)) qc;
  Qiskit.measure (Py.range 0 num_qubits) (Py.range 0 num_qubits) qc.

(** Modelled from the spec: the simulator backend ([AerSimulator], its
    [run] and [get_counts]) is an external collaborator whose code is not in
    the repository.  Following the spec, a run executes the circuit once
    per shot and returns the mapping from each observed bit string to its
    number of occurrences.  The random result of every measurement is taken
    from [measured], which the model leaves arbitrary: [measured s p] is the
    bit seen in shot [s] by the measurement at position [p] of [data]. *)
Module Aer.
Section Backend.
Variable measured : nat → nat → bool.

(** One shot: the classical register after the instructions from
    position [pos] on. *)
Fixpoint run_shot (shot pos : nat) (instrs : list instruction)
    (creg : list bool) : list bool :=
  match instrs with
  | [] => creg
  | Measure _ c :: rest =>
      run_shot shot (S pos) rest (<[c := measured shot pos]> creg)
  | _ :: rest => run_shot shot (S pos) rest creg
  end.

(** The key of a register: classical bit 0 is the rightmost character. *)
Definition bitstring (creg : list bool) : string :=
  foldl (λ acc (b : bool), String (if b then "1" else "0")%char acc)
        EmptyString creg.

Definition shot_key (qc : QuantumCircuit) (shot : nat) : string :=
  bitstring (run_shot shot 0 (data qc) (replicate (num_clbits qc) false)).

Definition tally (counts : gmap string Z) (key : string) : gmap string Z :=
  <[key := default 0 (counts !! key) + 1]> counts.

(** [backend.run(qc, shots=shots).result().get_counts()] *)
Definition get_counts (qc : QuantumCircuit) (shots : Z) : gmap string Z :=
  foldl tally ∅ (shot_key qc <$> seq 0 (Z.to_nat shots)).
End Backend.
End Aer.

(** ** The page *)

(** What the page shows.  Only the calls that carry computed data or
    delimit a section are kept; the static explanatory markdown is not. *)
Inductive element : Type :=
  | StHeader (body : string)
  | StWrite (body : string)
  | StWriteList (label : string) (values : list Z)
  | StCode (body : string)
  | StSuccess (body : string)
  | StError (body : string)
  | StPyplotCircuit (qc : QuantumCircuit)
  | StPyplotHistogram (counts : gmap string Z).


(** A run of script statements: it extends the page and either yields a
    value or raises ([None]); what was shown before the raise stays. *)
Definition Script (A : Type) : Type := list element → list element * option A.

#[global] Instance Script_ret : MRet Script := λ _ a page, (page, Some a).
#[global] Instance Script_bind : MBind Script := λ _ _ f m page,
  match m page with
  | (page', Some a) => f a page'
  | (page', None) => (page', None)
  end.

(** An expression that may raise. *)
Definition eval {A} (o : option A) : Script A := λ page, (page, o).

(** A display call. *)
Definition show (e : element) : Script unit := λ page, (page ++ [e], Some tt).

(** [try: body  except: handler] with a bare [except]. *)
Definition try_except (body handler : Script unit) : Script unit := λ page,
  match body page with
  | (page', Some _) => (page', Some tt)
  | (page', None) => handler page'
  end.

(** [[f"{message[i]}x^{i}" for i in range(len(message))]]; the field
    [{message[i]}] is a conversion that may raise, the index [i] of a list
    is far below the digit limit. *)
Definition poly_terms (message : list Z) : option (list string) :=
  mapM (λ i, a ← Py.getitem message i; t ← Py.fmt a;
             Some (t +:+ "x^" +:+ Py.str i))
       (Py.range 0 (Py.len message)).

(** [poly_str = " + ".join([...])] *)
Definition poly_str (message : list Z) : option string :=
  terms ← poly_terms message; Some (Py.join " + " terms).

(** [[int(x.strip()) for x in msg.split(",")]] *)
Definition parse_message (msg : string) : option (list Z) :=
  mapM (λ x, Py.int (Py.strip x)) (Py.split "," msg).

(** Lines 71-90: the [try] block and its handler.  The f-string of line
    87 is evaluated after the points are shown, and raises when an entry
    of the code word has too many digits. *)
Definition section2 (msg : string) : Script unit :=
  try_except
    (message ← eval (parse_message msg);
     let degree := Py.len message - 1 in
     show (StWrite "**Message Polynomial:**");;
     poly_str ← eval (poly_str message);
     show (StCode ("m(x) = " +:+ poly_str));;
     let eval_points := eval_points message in
     codeword ← eval (codeword_loop message eval_points []);
     show (StWriteList "**Evaluation Points:**" eval_points);;
     text ← eval (Py.fmt_list codeword);
     show (StSuccess ("Encoded RS Codeword: " +:+ text)))
    (show (StError "Please enter valid integers.")).

(** Lines 46-47, on the values the two [number_input] controls deliver. *)
Definition section1 (n k : Z) : Script unit :=
  let d := d n k in
  show (StSuccess ("Minimum Distance (d) = n − k + 1 = **" +:+ Py.str d +:+ "**")).

Definition shots : Z := 1024.

(** Modelled from the spec: the third section calls three external
    collaborators that are not in the repository: the drawing of the
    circuit, the simulator and the plotting of the histogram.  Each may
    fail, and the script catches none of these failures (spec 4.3 and 7).
    A [world] fixes, for one run, which of the calls succeed and what the
    simulator's measurements yield. *)
Record world : Type := mkWorld {
  measured : nat → nat → bool;
  draws : bool;
  runs : bool;
  plots : bool
}.

(** An external call that raises when the world makes it fail. *)
Definition external (ok : bool) : Script unit :=
  eval (if ok then Some tt else None).

(** Lines 112-133. *)
Definition section3 (w : world) (num_qubits : Z) : Script unit :=
  qc ← eval (build_circuit num_qubits);
  external (draws w);;
  show (StPyplotCircuit qc);;
  external (runs w);;
  let counts := Aer.get_counts (measured w) qc shots in
  external (plots w);;
  show (StPyplotHistogram counts).

Module St.

(** [st.number_input(label, min_value=.., max_value=.., value=..)]:
    creating the control raises when the default [value] lies outside the
    bounds; otherwise the control delivers the number the user entered,
    which the front end keeps within the bounds. *)
Definition number_input (min_value : Z) (max_value : option Z)
    (value entered : Z) : option Z :=
  let below_max :=
    match max_value with Some m => value <=? m | None => true end in
  if (min_value <=? value) && below_max then Some entered else None.

End St.

(** The whole script, on the values entered in its four input controls. *)
Record inputs : Type := mkInputs {
  in_n : Z; in_k : Z; in_msg : string; in_num_qubits : Z
}.

Definition header1 : string := "1️⃣ Maximum Distance Separable (MDS) Codes".
Definition header2 : string := "2️⃣ Classical Reed–Solomon Encoding".
Definition header3 : string := "3️⃣ Quantum-Inspired RS Encoding".

(** The script from top to bottom.  An exception that no handler catches
    ends the run; the page keeps what was shown before.  Line 44 creates
    the control for [k] with [max_value=n-1] and the default [value=3]. *)
Definition app (w : world) (i : inputs) : Script unit :=
  show (StHeader header1);;
  n ← eval (St.number_input 2 None 7 (in_n i));
  k ← eval (St.number_input 1 (Some (n - 1)) 3 (in_k i));
  section1 n k;;
  show (StHeader header2);;
  section2 (in_msg i);;
  show (StHeader header3);;
  section3 w (in_num_qubits i).

(** The part of a page that belongs to the section with header [h]: what
    follows that header, up to the next header. *)
Fixpoint until_header (page : list element) : list element :=
  match page with
  | [] => []
  | StHeader _ :: _ => []
  | e :: rest => e :: until_header rest
  end.

Fixpoint section_body (h : string) (page : list element) : list element :=
  match page with
  | [] => []
  | StHeader h' :: rest =>
      if String.eqb h' h then until_header rest else section_body h rest
  | _ :: rest => section_body h rest
  end.

Definition is_header (e : element) : bool :=
  match e with StHeader _ => true | _ => false end.

(** The sum of the values of a counts mapping. *)
Definition counts_total (counts : gmap string Z) : Z :=
  map_fold (λ _ v acc, v + acc) 0 counts.

(** ** The polynomial of the specification *)

(** [a0*x^i + a1*x^(i+1) + ...], by recursion on the coefficients. *)
Fixpoint poly_from (i : nat) (a : list Z) (x : Z) : Z :=
  match a with
  | [] => 0
  | c :: rest => c * x ^ Z.of_nat i + poly_from (S i) rest x
  end.

(** [Σ_i a_i * x^i] *)
Definition poly_value (a : list Z) (x : Z) : Z := poly_from 0 a x.

(** ** Auxiliary notions for the properties of the code word *)

(** The number of positions at which two code words differ. *)
Fixpoint hamming (u v : list Z) : nat :=
  match u, v with
  | x :: u', y :: v' => (if decide (x = y) then 0 else 1) + hamming u' v'
  | _, _ => 0
  end.

(** Division of the polynomial with coefficients [p] by [x - c]: the
    coefficients of the quotient and the remainder. *)
Fixpoint div_linear (c : Z) (p : list Z) : list Z * Z :=
  match p with
  | [] => ([], 0)
  | a :: rest =>
      match rest with
      | [] => ([], a)
      | _ => let '(q, r) := div_linear c rest in (r :: q, a + c * r)
      end
  end.

(** Horner's scheme for the same polynomial. *)
Definition horner (a : list Z) (x : Z) : Z := foldr (λ c acc, c + x * acc) 0 a.

(** The number of occurrences of a character in a text. *)
Fixpoint count_char (c : ascii) (s : string) : nat :=
  match s with
  | EmptyString => 0
  | String c' r => (if Ascii.eqb c' c then 1 else 0) + count_char c r
  end.

(** * Properties *)

(** ** Python primitives *)

Lemma range_from_zero (stop : Z) :
  Py.range 0 stop = Z.of_nat <$> seq 0 (Z.to_nat stop).
Proof.
  unfold Py.range. rewrite Z.sub_0_r.
  apply list_fmap_ext. intros _ j _. lia.
Qed.

Lemma range_len {A} (l : list A) : Py.range 0 (Py.len l) = Z.of_nat <$> seq 0 (length l).
Proof. rewrite range_from_zero. unfold Py.len. by rewrite Nat2Z.id. Qed.

Lemma getitem_in_range {A} (l : list A) (j : nat) :
  Py.getitem l (Z.of_nat j) = l !! j ∨ (length l ≤ j)%nat.
Proof.
  unfold Py.getitem, Py.len. destruct (decide (j < length l)%nat) as [Hj|Hj].
  - left. rewrite decide_True by lia. by rewrite Nat2Z.id.
  - right. lia.
Qed.

Lemma getitem_lookup {A} (l : list A) (j : nat) (a : A) :
  l !! j = Some a → Py.getitem l (Z.of_nat j) = Some a.
Proof.
  intros Hj. destruct (getitem_in_range l j) as [->|Hge]; [done|].
  apply lookup_lt_Some in Hj. lia.
Qed.

(** A comprehension over [range(len(l))] that reads [l[i]] visits the
    elements of [l] in order, each with its index; it raises only if the
    expression computed from an element does. *)
Lemma comprehension_range_len_opt {B} (l : list Z) (f : Z → Z → option B)
    (g : Z → Z → B) :
  (∀ j a, l !! j = Some a → f a (Z.of_nat j) = Some (g a (Z.of_nat j))) →
  mapM (λ i, a ← Py.getitem l i; f a i) (Py.range 0 (Py.len l))
  = Some (imap (λ j a, g a (Z.of_nat j)) l).
Proof.
  intros Hf. rewrite range_len. apply mapM_Some. apply Forall2_fmap_l.
  apply Forall2_lookup. intros j.
  rewrite list_lookup_imap.
  destruct (l !! j) as [a|] eqn:Hj; simpl.
  - pose proof (lookup_lt_Some _ _ _ Hj) as Hlt.
    rewrite lookup_seq_lt by done. constructor. simpl.
    rewrite (getitem_lookup _ _ _ Hj). simpl. by apply Hf.
  - apply lookup_ge_None in Hj. rewrite lookup_seq_ge by done. constructor.
Qed.

(** A comprehension over [range(len(l))] that reads [l[i]] never raises:
    it visits the elements of [l] in order, each with its index. *)
Lemma comprehension_range_len {B} (l : list Z) (g : Z → Z → B) :
  mapM (λ i, a ← Py.getitem l i; Some (g a i)) (Py.range 0 (Py.len l))
  = Some (imap (λ j a, g a (Z.of_nat j)) l).
Proof.
  rewrite range_len. apply mapM_Some. apply Forall2_fmap_l.
  apply Forall2_lookup. intros j.
  rewrite list_lookup_imap.
  destruct (l !! j) as [a|] eqn:Hj; simpl.
  - pose proof (lookup_lt_Some _ _ _ Hj) as Hlt.
    rewrite lookup_seq_lt by done. constructor. simpl.
    by rewrite (getitem_lookup _ _ _ Hj).
  - apply lookup_ge_None in Hj. rewrite lookup_seq_ge by done. constructor.
Qed.

Lemma sum_imap_poly (x : Z) (l : list Z) (k : nat) (acc : Z) :
  foldl Z.add acc (imap (λ j a, a * Py.pow x (Z.of_nat (k + j))) l)
  = acc + poly_from k l x.
Proof.
  revert k acc. induction l as [|c l IH]; intros k acc; simpl.
  - lia.
  - rewrite Nat.add_0_r.
    rewrite (imap_ext _ (λ j a, a * Py.pow x (Z.of_nat (S k + j)))).
    + rewrite IH. unfold Py.pow. lia.
    + intros j a _. simpl. do 3 f_equal. lia.
Qed.

(** ** Section 2: evaluation *)

Lemma val_poly_value (message : list Z) (x : Z) :
  val message x = Some (poly_value message x).
Proof.
  unfold val. rewrite (comprehension_range_len message (λ a i, a * Py.pow x i)).
  simpl. f_equal. unfold Py.sum, poly_value.
  exact (sum_imap_poly x message 0 0).
Qed.

Lemma codeword_loop_fmap (message points acc : list Z) :
  codeword_loop message points acc
  = Some (acc ++ (poly_value message <$> points)).
Proof.
  revert acc. induction points as [|x rest IH]; intros acc; simpl.
  - by rewrite app_nil_r.
  - rewrite val_poly_value. simpl. rewrite IH. by rewrite <- app_assoc.
Qed.

Lemma codeword_fmap (message : list Z) :
  codeword message = Some (poly_value message <$> eval_points message).
Proof. unfold codeword. by rewrite codeword_loop_fmap. Qed.

Lemma eval_points_seq (message : list Z) :
  eval_points message = Z.of_nat <$> seq 1 (length message + 2).
Proof.
  unfold eval_points, Py.range, Py.len.
  replace (Z.to_nat (Z.of_nat (length message) + 3 - 1))
    with (length message + 2)%nat by lia.
  rewrite <- (fmap_S_seq 0), <- list_fmap_compose.
  apply list_fmap_ext. intros _ j _. simpl. lia.
Qed.

Lemma eval_points_lookup (message : list Z) (j : nat) :
  (j < length message + 2)%nat →
  eval_points message !! j = Some (Z.of_nat j + 1).
Proof.
  intros Hj. rewrite eval_points_seq, list_lookup_fmap, lookup_seq_lt by done.
  simpl. f_equal. lia.
Qed.

Lemma poly_from_one (a : list Z) (i : nat) : poly_from i a 1 = foldr Z.add 0 a.
Proof.
  revert i. induction a as [|c a IH]; intros i; simpl; [done|].
  rewrite IH, Z.pow_1_l by lia. lia.
Qed.

(** ** Section 2: parsing and rendering *)

Lemma split_nonempty (sep : ascii) (s : string) : Py.split sep s ≠ [].
Proof.
  destruct s as [|c r]; simpl; [done|].
  destruct (Ascii.eqb c sep); [done|]. by destruct (Py.split sep r).
Qed.

(** ** Text: splitting, trimming and the decimal notation *)

Lemma join_cons (sep p : string) (t : string) (ts : list string) :
  Py.join sep (p :: t :: ts) = p +:+ sep +:+ Py.join sep (t :: ts).
Proof. done. Qed.

Lemma join_split (sep : ascii) (s : string) :
  Py.join (String sep EmptyString) (Py.split sep s) = s.
Proof.
  induction s as [|c r IH]; [done|]. simpl.
  pose proof (split_nonempty sep r) as Hne.
  destruct (Ascii.eqb_spec c sep) as [->|Hc].
  - destruct (Py.split sep r) as [|t ts]; [done|].
    rewrite join_cons, IH. done.
  - destruct (Py.split sep r) as [|t ts]; [done|].
    destruct ts as [|t' ts]; simpl in *; by rewrite <- IH.
Qed.

Lemma split_length (sep : ascii) (s : string) :
  length (Py.split sep s) = S (count_char sep s).
Proof.
  induction s as [|c r IH]; [done|]. simpl.
  destruct (Ascii.eqb c sep); simpl; [by rewrite IH|].
  destruct (Py.split sep r); simpl in *; lia.
Qed.

Lemma split_no_sep (sep : ascii) (s : string) :
  count_char sep s = 0%nat → Py.split sep s = [s].
Proof.
  induction s as [|c r IH]; [done|]. simpl.
  destruct (Ascii.eqb c sep); [done|]. intros Hr. by rewrite IH.
Qed.

Lemma string_app_nil (s : string) : EmptyString +:+ s = s.
Proof. done. Qed.

Lemma string_app_cons (c : ascii) (r s : string) :
  String c r +:+ s = String c (r +:+ s).
Proof. done. Qed.

Lemma split_app (sep : ascii) (pre s : string) :
  count_char sep pre = 0%nat →
  Py.split sep (pre +:+ s)
  = match Py.split sep s with
    | t :: ts => (pre +:+ t) :: ts
    | [] => []
    end.
Proof.
  intros Hpre. induction pre as [|c pre IH]; simpl in Hpre.
  - rewrite string_app_nil. by destruct (Py.split sep s).
  - rewrite string_app_cons. simpl.
    destruct (Ascii.eqb c sep); simpl in Hpre; [done|]. rewrite IH by done.
    pose proof (split_nonempty sep s). by destruct (Py.split sep s).
Qed.

Lemma split_app_sep (sep : ascii) (p s : string) :
  count_char sep p = 0%nat →
  Py.split sep (p +:+ String sep s) = p :: Py.split sep s.
Proof.
  intros Hp. induction p as [|c p IH]; simpl in Hp.
  - rewrite string_app_nil. simpl. by rewrite Ascii.eqb_refl.
  - rewrite string_app_cons. simpl.
    destruct (Ascii.eqb c sep); simpl in Hp; [done|]. by rewrite IH.
Qed.

(** Splitting undoes joining with a comma followed by a comma-free
    padding: the padding stays in front of the later pieces. *)
Lemma split_join (pad : string) (t : string) (ts : list string) :
  count_char "," pad = 0%nat →
  Forall (λ u, count_char "," u = 0%nat) (t :: ts) →
  Py.split "," (Py.join (String "," pad) (t :: ts))
  = t :: ((λ u, pad +:+ u) <$> ts).
Proof.
  intros Hpad Hall. revert t Hall.
  induction ts as [|u ts IH]; intros t [Ht Hts]%Forall_cons.
  - by apply split_no_sep.
  - rewrite join_cons, string_app_cons.
    rewrite split_app_sep by done. rewrite split_app by done.
    rewrite IH by done. done.
Qed.

Lemma lstrip_nonspace (c : ascii) (r : string) :
  Py.isspace c = false → Py.lstrip (String c r) = String c r.
Proof. intros Hc. simpl. by rewrite Hc. Qed.

Lemma rstrip_nonspace (s : string) :
  (∀ c, In c (list_ascii_of_string s) → Py.isspace c = false) →
  Py.rstrip s = s.
Proof.
  induction s as [|c r IH]; intros Hs; [done|]. simpl.
  rewrite IH by (intros c' Hc'; apply Hs; by right).
  destruct r; [|done]. by rewrite (Hs c) by (by left).
Qed.

Lemma strip_nonspace (s : string) :
  (∀ c, In c (list_ascii_of_string s) → Py.isspace c = false) →
  Py.strip s = s.
Proof.
  intros Hs. unfold Py.strip. destruct s as [|c r]; [done|].
  rewrite lstrip_nonspace by (apply Hs; by left). by apply rstrip_nonspace.
Qed.

Lemma digit_not_space (c : ascii) :
  Py.digit_value c ≠ None → Py.isspace c = false ∧ c ≠ ","%char.
Proof.
  unfold Py.digit_value, Py.isspace. cbv zeta. intros Hd. split.
  - destruct (_ && _) eqn:E in Hd; [|done].
    apply andb_true_iff in E as [E1%Nat.leb_le E2%Nat.leb_le].
    apply not_true_is_false. intros Hsp.
    repeat (apply orb_true_iff in Hsp as [Hsp|Hsp]);
      try (apply andb_true_iff in Hsp as [H1%Nat.leb_le H2%Nat.leb_le]);
      try apply Nat.eqb_eq in Hsp; lia.
  - intros ->. by apply Hd.
Qed.

Lemma int_digits_digit (c : ascii) (v : Z) (r : string) (acc : Z) (p : bool) :
  Py.digit_value c = Some v →
  Py.int_digits (String c r) acc p = Py.int_digits r (10 * acc + v) true.
Proof. intros Hc. simpl. by rewrite Hc. Qed.

Lemma uint_chars (d : Decimal.uint) (c : ascii) :
  In c (list_ascii_of_string (NilEmpty.string_of_uint d)) →
  Py.digit_value c ≠ None.
Proof.
  induction d as [|d IH|d IH|d IH|d IH|d IH|d IH|d IH|d IH|d IH|d IH];
    simpl; [done|..]; (intros [<-|Hin]; [done|by apply IH]).
Qed.

Lemma int_digits_uint_acc (d : Decimal.uint) (acc : positive) :
  Py.int_digits (NilEmpty.string_of_uint d) (Z.pos acc) true
  = Some (Z.pos (Pos.of_uint_acc d acc)).
Proof.
  revert acc.
  induction d as [|d IH|d IH|d IH|d IH|d IH|d IH|d IH|d IH|d IH|d IH];
    intros acc; [done|..];
    cbn [NilEmpty.string_of_uint Pos.of_uint_acc];
    [rewrite (int_digits_digit _ 0) by done
    |rewrite (int_digits_digit _ 1) by done
    |rewrite (int_digits_digit _ 2) by done
    |rewrite (int_digits_digit _ 3) by done
    |rewrite (int_digits_digit _ 4) by done
    |rewrite (int_digits_digit _ 5) by done
    |rewrite (int_digits_digit _ 6) by done
    |rewrite (int_digits_digit _ 7) by done
    |rewrite (int_digits_digit _ 8) by done
    |rewrite (int_digits_digit _ 9) by done];
    rewrite <- IH; f_equal; lia.
Qed.

Lemma int_digits_uint (d : Decimal.uint) (p : bool) :
  d ≠ Decimal.Nil ∨ p = true →
  Py.int_digits (NilEmpty.string_of_uint d) 0 p = Some (Z.of_N (Pos.of_uint d)).
Proof.
  revert p.
  induction d as [|d IH|d IH|d IH|d IH|d IH|d IH|d IH|d IH|d IH|d IH];
    intros p Hp.
  - destruct Hp as [?| ->]; done.
  - cbn [NilEmpty.string_of_uint Pos.of_uint].
    rewrite (int_digits_digit _ 0) by done. apply IH. by right.
  - cbn [NilEmpty.string_of_uint Pos.of_uint].
    rewrite (int_digits_digit _ 1) by done. apply (int_digits_uint_acc d 1).
  - cbn [NilEmpty.string_of_uint Pos.of_uint].
    rewrite (int_digits_digit _ 2) by done. apply (int_digits_uint_acc d 2).
  - cbn [NilEmpty.string_of_uint Pos.of_uint].
    rewrite (int_digits_digit _ 3) by done. apply (int_digits_uint_acc d 3).
  - cbn [NilEmpty.string_of_uint Pos.of_uint].
    rewrite (int_digits_digit _ 4) by done. apply (int_digits_uint_acc d 4).
  - cbn [NilEmpty.string_of_uint Pos.of_uint].
    rewrite (int_digits_digit _ 5) by done. apply (int_digits_uint_acc d 5).
  - cbn [NilEmpty.string_of_uint Pos.of_uint].
    rewrite (int_digits_digit _ 6) by done. apply (int_digits_uint_acc d 6).
  - cbn [NilEmpty.string_of_uint Pos.of_uint].
    rewrite (int_digits_digit _ 7) by done. apply (int_digits_uint_acc d 7).
  - cbn [NilEmpty.string_of_uint Pos.of_uint].
    rewrite (int_digits_digit _ 8) by done. apply (int_digits_uint_acc d 8).
  - cbn [NilEmpty.string_of_uint Pos.of_uint].
    rewrite (int_digits_digit _ 9) by done. apply (int_digits_uint_acc d 9).
Qed.

Lemma str_cases (z : Z) :
  match z with
  | Z0 => Py.str z = "0"
  | Z.pos p => Py.str z = NilEmpty.string_of_uint (Pos.to_uint p)
  | Z.neg p => Py.str z = String "-" (NilEmpty.string_of_uint (Pos.to_uint p))
  end.
Proof.
  destruct z as [|p|p]; [done|..]; unfold Py.str; simpl;
    unfold NilZero.string_of_uint;
    pose proof (Unsigned.to_uint_nonnil p); by destruct (Pos.to_uint p).
Qed.

Lemma str_chars (z : Z) (c : ascii) :
  In c (list_ascii_of_string (Py.str z)) →
  Py.digit_value c ≠ None ∨ c = "-"%char.
Proof.
  pose proof (str_cases z) as Hz. destruct z as [|p|p]; rewrite Hz; simpl.
  - intros [<-|[]]. by left.
  - intros Hin. left. by apply (uint_chars (Pos.to_uint p)).
  - intros [<-|Hin]; [by right|]. left. by apply (uint_chars (Pos.to_uint p)).
Qed.

Lemma str_no_space (z : Z) (c : ascii) :
  In c (list_ascii_of_string (Py.str z)) → Py.isspace c = false.
Proof.
  intros [Hd| ->]%str_chars; [by apply digit_not_space|done].
Qed.

Lemma count_char_absent (sep : ascii) (s : string) :
  (∀ c, In c (list_ascii_of_string s) → c ≠ sep) → count_char sep s = 0%nat.
Proof.
  induction s as [|c r IH]; intros Hs; [done|]. simpl.
  rewrite IH by (intros c' Hc'; apply Hs; by right).
  destruct (Ascii.eqb_spec c sep) as [->|_]; [|done].
  by destruct (Hs sep) ; [left|].
Qed.

Lemma str_no_comma (z : Z) : count_char "," (Py.str z) = 0%nat.
Proof.
  apply count_char_absent. intros c [Hd| ->]%str_chars; [|done].
  by apply digit_not_space.
Qed.

Lemma first_digit_no_sign (d : Decimal.uint) (c : ascii) (r : string) :
  NilEmpty.string_of_uint d = String c r →
  Ascii.eqb c "+" = false ∧ Ascii.eqb c "-" = false.
Proof. destruct d; simpl; intros [= <- _]; done. Qed.

Lemma digit_value_range (c : ascii) (v : Z) :
  Py.digit_value c = Some v → 0 ≤ v ≤ 9.
Proof.
  unfold Py.digit_value. cbv zeta.
  destruct (_ && _) eqn:E; [|done]. intros [= <-].
  apply andb_true_iff in E as [E1%Nat.leb_le E2%Nat.leb_le]. lia.
Qed.

(** The digit scan yields a number between [acc * 10^k] and
    [(acc + 1) * 10^k], for [k] the number of digits scanned. *)
Lemma int_digits_bounds (s : string) (acc v : Z) (p : bool) :
  Py.int_digits s acc p = Some v → 0 ≤ acc →
  acc * 10 ^ Z.of_nat (Py.count_digits s) ≤ v
  < (acc + 1) * 10 ^ Z.of_nat (Py.count_digits s).
Proof.
  revert acc p. induction s as [|c r IH]; intros acc p; simpl.
  - destruct p; [|done]. intros [= ->] Hacc. lia.
  - destruct (Py.digit_value c) as [dv|] eqn:Hc.
    + intros Hv Hacc. pose proof (digit_value_range _ _ Hc) as Hdv.
      apply IH in Hv; [|lia].
      rewrite Nat2Z.inj_succ, Z.pow_succ_r by lia.
      assert (0 < 10 ^ Z.of_nat (Py.count_digits r)) by (apply Z.pow_pos_nonneg; lia).
      nia.
    + destruct (Ascii.eqb c "_" && p); [|done]. intros Hv Hacc.
      by apply (IH _ _ Hv).
Qed.

(** The notation of a positive number starts with a digit that is not 0. *)
Lemma to_uint_head (p : positive) :
  ∃ c r v0, NilEmpty.string_of_uint (Pos.to_uint p) = String c r
            ∧ Py.digit_value c = Some v0 ∧ 1 ≤ v0.
Proof.
  assert (Decimal.unorm (Pos.to_uint p) = Pos.to_uint p) as Hnorm.
  { rewrite <- (Unsigned.to_of (Pos.to_uint p)), Unsigned.of_to. done. }
  pose proof (Unsigned.to_uint_nonnil p) as Hnil.
  pose proof (Unsigned.to_uint_nonzero p) as Hzero.
  destruct (Pos.to_uint p) as [|u|u|u|u|u|u|u|u|u|u] eqn:Hp; [done|..].
  - exfalso. unfold Decimal.unorm in Hnorm.
    destruct (Decimal.nzhead (Decimal.D0 u)) eqn:Hhead;
      try (by apply (DecimalFacts.nzhead_nonzero (Decimal.D0 u) u);
           rewrite Hhead, Hnorm).
    apply Hzero. by rewrite <- Hnorm.
  - by exists "1"%char, (NilEmpty.string_of_uint u), 1.
  - by exists "2"%char, (NilEmpty.string_of_uint u), 2.
  - by exists "3"%char, (NilEmpty.string_of_uint u), 3.
  - by exists "4"%char, (NilEmpty.string_of_uint u), 4.
  - by exists "5"%char, (NilEmpty.string_of_uint u), 5.
  - by exists "6"%char, (NilEmpty.string_of_uint u), 6.
  - by exists "7"%char, (NilEmpty.string_of_uint u), 7.
  - by exists "8"%char, (NilEmpty.string_of_uint u), 8.
  - by exists "9"%char, (NilEmpty.string_of_uint u), 9.
Qed.

Lemma to_uint_magnitude (p : positive) :
  let k := Py.count_digits (NilEmpty.string_of_uint (Pos.to_uint p)) in
  (1 ≤ k)%nat ∧ 10 ^ (Z.of_nat k - 1) ≤ Z.pos p < 10 ^ Z.of_nat k.
Proof.
  intros k. subst k.
  pose proof (int_digits_uint (Pos.to_uint p) false
                (or_introl (Unsigned.to_uint_nonnil p))) as Hv.
  rewrite Unsigned.of_to in Hv. simpl in Hv.
  destruct (to_uint_head p) as (c & r & v0 & Hs & Hc & Hv0).
  rewrite Hs in *. rewrite (int_digits_digit _ _ _ _ _ Hc) in Hv.
  apply int_digits_bounds in Hv; [|lia].
  simpl. rewrite Hc.
  assert (0 < 10 ^ Z.of_nat (Py.count_digits r)) by (apply Z.pow_pos_nonneg; lia).
  pose proof (digit_value_range _ _ Hc).
  replace (Z.of_nat (1 + Py.count_digits r) - 1)
    with (Z.of_nat (Py.count_digits r)) by lia.
  replace (Z.of_nat (1 + Py.count_digits r))
    with (Z.succ (Z.of_nat (Py.count_digits r))) by lia.
  rewrite Z.pow_succ_r by lia. split; [lia|nia].
Qed.

(** The notation of [z] has at most [k] digits exactly when [|z| < 10^k]. *)
Lemma digits_le_iff (z : Z) (k : nat) :
  (1 ≤ k)%nat →
  (Py.count_digits (Py.str z) ≤ k)%nat ↔ Z.abs z < 10 ^ Z.of_nat k.
Proof.
  intros Hk. pose proof (str_cases z) as Hz.
  assert (∀ p, (Py.count_digits (NilEmpty.string_of_uint (Pos.to_uint p)) ≤ k)%nat
               ↔ Z.pos p < 10 ^ Z.of_nat k) as Hpos.
  { intros p. destruct (to_uint_magnitude p) as [H1 [Hlo Hhi]].
    set (n := Py.count_digits _) in *. split.
    - intros Hn. eapply Z.lt_le_trans; [exact Hhi|].
      apply Z.pow_le_mono_r; lia.
    - intros Hlt. assert (10 ^ (Z.of_nat n - 1) < 10 ^ Z.of_nat k) as Hpow by lia.
      apply Z.pow_lt_mono_r_iff in Hpow; lia. }
  destruct z as [|p|p]; rewrite Hz.
  - simpl. split; [|lia]. intros _. apply Z.pow_pos_nonneg; lia.
  - apply Hpos.
  - change (Py.count_digits (String "-" ?s)) with (Py.count_digits s).
    apply Hpos.
Qed.

Lemma max_str_digits_pos : (1 ≤ Py.max_str_digits)%nat.
Proof. apply le_n_S, Nat.le_0_l. Qed.

Lemma fits_iff (z : Z) :
  Py.fits z ↔ Z.abs z < 10 ^ Z.of_nat Py.max_str_digits.
Proof. apply digits_le_iff, max_str_digits_pos. Qed.

Lemma fmt_fits (z : Z) : Py.fits z → Py.fmt z = Some (Py.str z).
Proof.
  unfold Py.fits, Py.fmt. intros Hz%Nat.leb_le. by rewrite Hz.
Qed.

Lemma fmt_too_long (z : Z) : ¬ Py.fits z → Py.fmt z = None.
Proof.
  unfold Py.fits, Py.fmt. intros Hz.
  destruct (Nat.leb_spec (Py.count_digits (Py.str z)) Py.max_str_digits); [done|].
  done.
Qed.

Lemma fmt_Some (z : Z) (t : string) : Py.fmt z = Some t → Py.fits z ∧ t = Py.str z.
Proof.
  unfold Py.fits, Py.fmt.
  destruct (Nat.leb_spec (Py.count_digits (Py.str z)) Py.max_str_digits);
    [|done]. by intros [= <-].
Qed.

(** [int] reads back what [str] writes, within the digit limit. *)
Lemma int_str (z : Z) : Py.fits z → Py.int (Py.str z) = Some z.
Proof.
  intros Hfit%Nat.leb_le.
  unfold Py.int. rewrite strip_nonspace by apply str_no_space. rewrite Hfit.
  clear Hfit.
  pose proof (str_cases z) as Hz. destruct z as [|p|p]; rewrite Hz; [done|..].
  - pose proof (int_digits_uint (Pos.to_uint p) false
                  (or_introl (Unsigned.to_uint_nonnil p))) as Hd.
    rewrite Unsigned.of_to in Hd.
    destruct (NilEmpty.string_of_uint (Pos.to_uint p)) as [|c r] eqn:Hs; [done|].
    destruct (first_digit_no_sign _ _ _ Hs) as [-> ->]. done.
  - change (Ascii.eqb "-" "+") with false. change (Ascii.eqb "-" "-") with true.
    cbv iota.
    rewrite (int_digits_uint (Pos.to_uint p) false)
      by (left; apply Unsigned.to_uint_nonnil).
    by rewrite Unsigned.of_to.
Qed.

(** What [int] returns is within the digit limit. *)
Lemma int_fits (s : string) (a : Z) : Py.int s = Some a → Py.fits a.
Proof.
  unfold Py.int.
  destruct (Nat.leb_spec (Py.count_digits (Py.strip s)) Py.max_str_digits)
    as [Hcount|]; [|done].
  intros Ha. apply fits_iff.
  assert (∀ r v, Py.int_digits r 0 false = Some v →
                 (Py.count_digits r ≤ Py.max_str_digits)%nat →
                 0 ≤ v < 10 ^ Z.of_nat Py.max_str_digits) as Hscan.
  { intros r v Hv Hr. apply int_digits_bounds in Hv; [|done].
    assert (10 ^ Z.of_nat (Py.count_digits r) ≤ 10 ^ Z.of_nat Py.max_str_digits)
      by (apply Z.pow_le_mono_r; lia).
    lia. }
  destruct (Py.strip s) as [|c r]; [done|].
  assert (Py.count_digits r ≤ Py.count_digits (String c r))%nat as Hr
    by (simpl; lia).
  destruct (Ascii.eqb c "+").
  - apply Hscan in Ha; lia.
  - destruct (Ascii.eqb c "-").
    + destruct (Py.int_digits r 0 false) as [v|] eqn:Hv; [|done].
      simplify_eq/=. apply Hscan in Hv; lia.
    + apply Hscan in Ha; lia.
Qed.

Lemma strip_space_before (s : string) : Py.strip (String " " s) = Py.strip s.
Proof. done. Qed.

Lemma strip_strip_str (z : Z) : Py.strip (Py.str z) = Py.str z.
Proof. apply strip_nonspace, str_no_space. Qed.

Lemma lstrip_spaces (w : string) :
  (∀ c, In c (list_ascii_of_string w) → Py.isspace c = true) →
  Py.lstrip w = EmptyString.
Proof.
  induction w as [|c w IH]; intros Hw; [done|]. simpl.
  rewrite (Hw c) by (by left). apply IH. intros c' Hc'. apply Hw. by right.
Qed.

Lemma rstrip_spaces (w : string) :
  (∀ c, In c (list_ascii_of_string w) → Py.isspace c = true) →
  Py.rstrip w = EmptyString.
Proof.
  induction w as [|c w IH]; intros Hw; [done|]. simpl.
  rewrite IH by (intros c' Hc'; apply Hw; by right).
  by rewrite (Hw c) by (by left).
Qed.

Lemma lstrip_app_spaces (w s : string) :
  (∀ c, In c (list_ascii_of_string w) → Py.isspace c = true) →
  Py.lstrip (w +:+ s) = Py.lstrip s.
Proof.
  induction w as [|c w IH]; intros Hw; [done|].
  rewrite string_app_cons. simpl.
  rewrite (Hw c) by (by left). apply IH. intros c' Hc'. apply Hw. by right.
Qed.

Lemma rstrip_app_spaces (s w : string) :
  (∀ c, In c (list_ascii_of_string w) → Py.isspace c = true) →
  Py.rstrip (s +:+ w) = Py.rstrip s.
Proof.
  intros Hw. induction s as [|c s IH].
  - rewrite string_app_nil. by apply rstrip_spaces.
  - rewrite string_app_cons. simpl. by rewrite IH.
Qed.

Lemma strip_app_spaces (s w : string) :
  (∀ c, In c (list_ascii_of_string w) → Py.isspace c = true) →
  Py.strip (s +:+ w) = Py.strip s.
Proof.
  intros Hw. unfold Py.strip. induction s as [|c s IH].
  - rewrite string_app_nil. by rewrite lstrip_spaces.
  - rewrite string_app_cons. simpl. destruct (Py.isspace c); [done|].
    rewrite <- string_app_cons. by apply rstrip_app_spaces.
Qed.

(** Every token is converted: a parsed message has one coefficient per
    token, in order, so no token is skipped. *)
Lemma parse_message_tokens (msg : string) (message : list Z) :
  parse_message msg = Some message ↔
  Forall2 (λ tok a, Py.int (Py.strip tok) = Some a) (Py.split "," msg) message.
Proof. apply mapM_Some. Qed.

Lemma parse_message_nonempty (msg : string) (message : list Z) :
  parse_message msg = Some message → message ≠ [].
Proof.
  intros Hp%parse_message_tokens ->. apply Forall2_nil_inv_r in Hp.
  by apply (split_nonempty "," msg).
Qed.

Lemma parse_message_bad_token (msg tok : string) :
  tok ∈ Py.split "," msg → Py.int (Py.strip tok) = None →
  parse_message msg = None.
Proof.
  intros Hin Hbad. apply mapM_None. apply Exists_exists. eauto.
Qed.

Lemma int_digits_foreign (c : ascii) (s : string) (acc : Z) (p : bool) :
  In c (list_ascii_of_string s) → Py.digit_value c = None → c ≠ "_"%char →
  Py.int_digits s acc p = None.
Proof.
  intros Hin Hd Hu. revert acc p.
  induction s as [|c' r IH]; intros acc p; simpl in *; [done|].
  destruct Hin as [->|Hin].
  - rewrite Hd. apply Ascii.eqb_neq in Hu. by rewrite Hu.
  - destruct (Py.digit_value c'); [by apply IH|].
    destruct (Ascii.eqb c' "_" && p); [by apply IH|done].
Qed.

Lemma parse_message_fits (msg : string) (message : list Z) :
  parse_message msg = Some message → Forall Py.fits message.
Proof.
  intros Hp%parse_message_tokens. apply Forall_forall. intros a Ha.
  apply list_elem_of_lookup in Ha as [j Hj].
  destruct (Forall2_lookup_r _ _ _ _ _ Hp Hj) as (tok & _ & Htok).
  by apply (int_fits _ _ Htok).
Qed.

Lemma poly_terms_imap (message : list Z) :
  Forall Py.fits message →
  poly_terms message
  = Some (imap (λ j a, Py.str a +:+ "x^" +:+ Py.str (Z.of_nat j)) message).
Proof.
  intros Hfit. unfold poly_terms.
  apply (comprehension_range_len_opt message
           (λ a i, t ← Py.fmt a; Some (t +:+ "x^" +:+ Py.str i))
           (λ a i, Py.str a +:+ "x^" +:+ Py.str i)).
  intros j a Hj. rewrite fmt_fits; [done|].
  rewrite Forall_forall in Hfit. apply Hfit.
  apply list_elem_of_lookup. eauto.
Qed.

Lemma fmt_list_fits (l : list Z) :
  Forall Py.fits l → Py.fmt_list l = Some (Py.str_list l).
Proof.
  intros Hfit. unfold Py.fmt_list, Py.str_list.
  assert (mapM Py.fmt l = Some (Py.str <$> l)) as ->; [|done].
  apply mapM_Some, Forall2_fmap_r, Forall_Forall2_diag.
  eapply Forall_impl; [exact Hfit|]. intros z Hz. by apply fmt_fits.
Qed.

Lemma fmt_list_too_long (l : list Z) (z : Z) :
  z ∈ l → ¬ Py.fits z → Py.fmt_list l = None.
Proof.
  intros Hin Hz. unfold Py.fmt_list.
  assert (mapM Py.fmt l = None) as ->; [|done].
  apply mapM_None, Exists_exists. exists z. split; [done|].
  by apply fmt_too_long.
Qed.

Lemma fmt_list_Some (l : list Z) (text : string) :
  Py.fmt_list l = Some text → Forall Py.fits l ∧ text = Py.str_list l.
Proof.
  unfold Py.fmt_list. destruct (mapM Py.fmt l) as [texts|] eqn:Hm; [|done].
  intros [= <-]. apply mapM_Some in Hm.
  assert (Forall Py.fits l ∧ texts = Py.str <$> l) as [Hfit ->].
  { induction Hm as [|z t l texts Hz _ [IH1 IH2]]; [done|].
    apply fmt_Some in Hz as [Hz ->]. split; [by constructor|].
    by rewrite fmap_cons, IH2. }
  done.
Qed.

(** The page of a run whose message parses: three elements, then the code
    word if line 87 can render it and the error banner if it cannot; and
    the page of a run whose message does not parse. *)
Lemma section2_parsed (msg : string) (message : list Z) (page : list element) :
  parse_message msg = Some message →
  section2 msg page =
    (page ++
       [StWrite "**Message Polynomial:**";
        StCode ("m(x) = " +:+ Py.join " + "
                  (imap (λ j a, Py.str a +:+ "x^" +:+ Py.str (Z.of_nat j)) message));
        StWriteList "**Evaluation Points:**" (eval_points message);
        match Py.fmt_list (poly_value message <$> eval_points message) with
        | Some text => StSuccess ("Encoded RS Codeword: " +:+ text)
        | None => StError "Please enter valid integers."
        end],
     Some tt).
Proof.
  intros Hp. unfold section2, try_except, eval, show, poly_str.
  unfold mbind, Script_bind.
  rewrite Hp, poly_terms_imap by (by apply (parse_message_fits msg)).
  rewrite codeword_loop_fmap. simpl.
  destruct (Py.fmt_list _); by rewrite <- !app_assoc.
Qed.

Lemma section2_unparsed (msg : string) (page : list element) :
  parse_message msg = None →
  section2 msg page = (page ++ [StError "Please enter valid integers."], Some tt).
Proof.
  intros Hp. unfold section2, try_except, eval, show.
  unfold mbind, Script_bind. by rewrite Hp.
Qed.

(** ** Section 3: the circuit *)

Lemma qubit_lookup (qc : QuantumCircuit) (j : nat) :
  (j < num_qubits qc)%nat → Qiskit.qubit qc (Z.of_nat j) = Some j.
Proof. intros Hj. apply getitem_lookup. by rewrite lookup_seq_lt. Qed.

Lemma clbit_lookup (qc : QuantumCircuit) (j : nat) :
  (j < num_clbits qc)%nat → Qiskit.clbit qc (Z.of_nat j) = Some j.
Proof. intros Hj. apply getitem_lookup. by rewrite lookup_seq_lt. Qed.

Lemma h_lookup (qc : QuantumCircuit) (j : nat) :
  (j < num_qubits qc)%nat →
  Qiskit.h (Z.of_nat j) qc = Some (Qiskit.append (H j) qc).
Proof. intros Hj. unfold Qiskit.h. by rewrite qubit_lookup. Qed.

Lemma cx_lookup (qc : QuantumCircuit) (j : nat) :
  (S j < num_qubits qc)%nat →
  Qiskit.cx (Z.of_nat j) (Z.of_nat j + 1) qc = Some (Qiskit.append (CX j (S j)) qc).
Proof.
  intros Hj. unfold Qiskit.cx.
  replace (Z.of_nat j + 1) with (Z.of_nat (S j)) by lia.
  rewrite !qubit_lookup by lia. simpl. by rewrite decide_False by lia.
Qed.

Lemma for_each_h (k j : nat) (qc : QuantumCircuit) :
  (j + k ≤ num_qubits qc)%nat →
  for_each (Z.of_nat <$> seq j k) Qiskit.h qc
  = Some (mkCircuit (num_qubits qc) (num_clbits qc) (data qc ++ (H <$> seq j k))).
Proof.
  revert j qc. induction k as [|k IH]; intros j qc Hle; csimpl.
  - rewrite app_nil_r. by destruct qc.
  - rewrite h_lookup by lia. csimpl.
    rewrite IH by (simpl; lia). simpl. by rewrite <- app_assoc.
Qed.

Lemma for_each_cx (k j : nat) (qc : QuantumCircuit) :
  (k = 0 ∨ j + k < num_qubits qc)%nat →
  for_each (Z.of_nat <$> seq j k) (λ i, Qiskit.cx i (i + 1)) qc
  = Some (mkCircuit (num_qubits qc) (num_clbits qc)
            (data qc ++ ((λ i, CX i (S i)) <$> seq j k))).
Proof.
  revert j qc. induction k as [|k IH]; intros j qc Hle; csimpl.
  - rewrite app_nil_r. by destruct qc.
  - rewrite cx_lookup by lia. csimpl.
    rewrite IH by (simpl; lia). simpl. by rewrite <- app_assoc.
Qed.

Lemma foldl_append_measure (pairs : list (nat * nat)) (qc : QuantumCircuit) :
  foldl (λ acc p, Qiskit.append (Measure p.1 p.2) acc) qc pairs
  = mkCircuit (num_qubits qc) (num_clbits qc)
      (data qc ++ ((λ p, Measure p.1 p.2) <$> pairs)).
Proof.
  revert qc. induction pairs as [|p pairs IH]; intros qc; simpl.
  - rewrite app_nil_r. by destruct qc.
  - rewrite IH. simpl. by rewrite <- app_assoc.
Qed.

Lemma bits_of_range (n : nat) (resolve : Z → option nat) :
  (∀ j, (j < n)%nat → resolve (Z.of_nat j) = Some j) →
  mapM resolve (Z.of_nat <$> seq 0 n) = Some (seq 0 n).
Proof.
  intros Hres. apply mapM_Some, Forall2_fmap_l, Forall2_lookup. intros j.
  destruct (decide (j < n)%nat) as [Hj|Hj].
  - rewrite lookup_seq_lt by done. constructor. by apply Hres.
  - rewrite lookup_seq_ge by lia. constructor.
Qed.

Lemma measure_all (qc : QuantumCircuit) :
  num_clbits qc = num_qubits qc →
  Qiskit.measure (Z.of_nat <$> seq 0 (num_qubits qc))
                 (Z.of_nat <$> seq 0 (num_qubits qc)) qc
  = Some (mkCircuit (num_qubits qc) (num_clbits qc)
            (data qc ++ ((λ i, Measure i i) <$> seq 0 (num_qubits qc)))).
Proof.
  intros Heq. unfold Qiskit.measure.
  rewrite (bits_of_range _ (Qiskit.qubit qc)) by apply qubit_lookup.
  rewrite (bits_of_range _ (Qiskit.clbit qc))
    by (intros j Hj; apply clbit_lookup; lia).
  simpl. rewrite decide_True by done.
  rewrite foldl_append_measure, zip_diag, <- list_fmap_compose. done.
Qed.

(** The circuit of a non-negative size. *)
Lemma build_circuit_shape (nq : Z) :
  0 ≤ nq →
  build_circuit nq
  = Some (mkCircuit (Z.to_nat nq) (Z.to_nat nq)
            ((H <$> seq 0 (Z.to_nat nq))
             ++ ((λ i, CX i (S i)) <$> seq 0 (Z.to_nat nq - 1))
             ++ ((λ i, Measure i i) <$> seq 0 (Z.to_nat nq)))).
Proof.
  intros Hnq. unfold build_circuit, Qiskit.new.
  rewrite decide_True by lia. simpl.
  rewrite !range_from_zero.
  rewrite for_each_h by (simpl; lia). simpl.
  replace (Z.to_nat (nq - 1)) with (Z.to_nat nq - 1)%nat by lia.
  rewrite for_each_cx by (simpl; lia). simpl.
  rewrite (measure_all (mkCircuit (Z.to_nat nq) (Z.to_nat nq) _)) by done.
  simpl. by rewrite <- app_assoc.
Qed.

(** ** Section 3: the counts *)

Section Counts.
Variable measured : nat → nat → bool.

Lemma run_shot_length (shot : nat) (instrs : list instruction)
    (pos : nat) (creg : list bool) :
  length (Aer.run_shot measured shot pos instrs creg) = length creg.
Proof.
  revert pos creg. induction instrs as [|[q|c t|q c] rest IH];
    intros pos creg; simpl; [done|by rewrite IH..|].
  by rewrite IH, length_insert.
Qed.

Lemma bitstring_length_from (creg : list bool) (acc : string) :
  String.length
    (foldl (λ acc (b : bool), String (if b then "1" else "0")%char acc) acc creg)
  = (length creg + String.length acc)%nat.
Proof.
  revert acc. induction creg as [|b creg IH]; intros acc; simpl; [done|].
  rewrite IH. simpl. lia.
Qed.

Lemma shot_key_length (qc : QuantumCircuit) (shot : nat) :
  String.length (Aer.shot_key measured qc shot) = num_clbits qc.
Proof.
  unfold Aer.shot_key, Aer.bitstring.
  rewrite bitstring_length_from, run_shot_length, length_replicate.
  simpl. lia.
Qed.

Lemma counts_total_insert (counts : gmap string Z) (key : string) (v : Z) :
  counts !! key = None →
  counts_total (<[key := v]> counts) = v + counts_total counts.
Proof.
  intros Hnone. unfold counts_total.
  rewrite map_fold_insert_L; [done| |done]. intros. lia.
Qed.

Lemma tally_total (counts : gmap string Z) (key : string) :
  counts_total (Aer.tally counts key) = counts_total counts + 1.
Proof.
  unfold Aer.tally. destruct (counts !! key) as [v|] eqn:Hkey; simpl.
  - rewrite <- (insert_delete_eq counts).
    rewrite counts_total_insert by apply lookup_delete_eq.
    rewrite <- (insert_delete_id counts key v) at 2 by done.
    rewrite counts_total_insert by apply lookup_delete_eq. lia.
  - rewrite counts_total_insert by done. lia.
Qed.

Lemma tally_Forall (P : string → Z → Prop) (counts : gmap string Z) (key : string) :
  (∀ v, 0 ≤ v → P key (v + 1)) →
  map_Forall (λ k v, 0 ≤ v ∧ P k v) counts →
  map_Forall (λ k v, 0 ≤ v ∧ P k v) (Aer.tally counts key).
Proof.
  intros Hkey Hall. unfold Aer.tally. apply map_Forall_insert_2; [|done].
  destruct (counts !! key) as [v|] eqn:Hv; simpl.
  - destruct (Hall _ _ Hv) as [Hpos _]. split; [lia|by apply Hkey].
  - split; [lia|]. by apply (Hkey 0).
Qed.

Lemma foldl_tally_total (keys : list string) (counts : gmap string Z) :
  counts_total (foldl Aer.tally counts keys)
  = counts_total counts + Z.of_nat (length keys).
Proof.
  revert counts. induction keys as [|key keys IH]; intros counts; simpl; [lia|].
  rewrite IH, tally_total. lia.
Qed.

Lemma foldl_tally_Forall (P : string → Prop) (keys : list string)
    (counts : gmap string Z) :
  Forall P keys →
  map_Forall (λ k v, 0 ≤ v ∧ (1 ≤ v ∧ P k)) counts →
  map_Forall (λ k v, 0 ≤ v ∧ (1 ≤ v ∧ P k)) (foldl Aer.tally counts keys).
Proof.
  intros Hkeys. revert counts.
  induction Hkeys as [|key keys Hkey _ IH]; intros counts Hall; simpl; [done|].
  apply IH. apply (tally_Forall (λ k v, 1 ≤ v ∧ P k)); [|done].
  intros v Hv. split; [lia|done].
Qed.

(** A run of [n] shots: the values are positive and add up to [n]; the
    keys are as wide as the classical register. *)
Lemma get_counts_spec (qc : QuantumCircuit) (n : Z) :
  0 ≤ n →
  counts_total (Aer.get_counts measured qc n) = n
  ∧ ∀ key v, Aer.get_counts measured qc n !! key = Some v →
      1 ≤ v ∧ String.length key = num_clbits qc.
Proof.
  intros Hn. unfold Aer.get_counts. split.
  - rewrite foldl_tally_total, length_fmap, length_seq.
    unfold counts_total. rewrite map_fold_empty. lia.
  - intros key v Hv.
    eapply (foldl_tally_Forall (λ k, String.length k = num_clbits qc)) in Hv.
    + simpl in Hv. tauto.
    + apply Forall_fmap, Forall_forall. intros shot _. simpl.
      apply shot_key_length.
    + apply map_Forall_empty.
Qed.
End Counts.

(** ** The page *)

Lemma until_header_app (body rest : list element) (h : string) :
  Forall (λ e, is_header e = false) body →
  until_header (body ++ StHeader h :: rest) = body.
Proof.
  induction 1 as [|e body He _ IH]; simpl; [done|].
  rewrite IH. by destruct e.
Qed.

Lemma section2_no_header (msg : string) :
  Forall (λ e, is_header e = false) (section2 msg []).1.
Proof.
  destruct (parse_message msg) as [message|] eqn:Hp.
  - rewrite (section2_parsed _ _ _ Hp). simpl.
    destruct (Py.fmt_list _); by repeat constructor.
  - rewrite (section2_unparsed _ _ Hp). simpl. by repeat constructor.
Qed.

Lemma section2_extends (msg : string) (page : list element) :
  section2 msg page = (page ++ (section2 msg []).1, Some tt).
Proof.
  destruct (parse_message msg) as [message|] eqn:Hp.
  - by rewrite !(section2_parsed _ _ _ Hp).
  - by rewrite !(section2_unparsed _ _ Hp).
Qed.

Lemma section3_extends (w : world) (nq : Z) (page : list element) :
  ∃ body out, section3 w nq page = (page ++ body, out).
Proof.
  unfold section3, external, eval, show, mbind, Script_bind.
  destruct (build_circuit nq) as [qc|]; [|exists [], None; by rewrite app_nil_r].
  destruct (draws w); [|exists [], None; by rewrite app_nil_r].
  destruct (runs w); [|eexists _, None; done].
  destruct (plots w); [|eexists _, None; done].
  eexists _, _. by rewrite <- app_assoc.
Qed.

(** Line 44: the control for [k] is created only when [n >= 4]. *)
Lemma controls_created (n k : Z) :
  4 ≤ n →
  St.number_input 2 None 7 n = Some n
  ∧ St.number_input 1 (Some (n - 1)) 3 k = Some k.
Proof.
  intros Hn. unfold St.number_input. split; [done|].
  by rewrite (proj2 (Z.leb_le 3 (n - 1))) by lia.
Qed.

Lemma control_k_raises (n k : Z) :
  n < 4 → St.number_input 1 (Some (n - 1)) 3 k = None.
Proof.
  intros Hn. unfold St.number_input.
  by rewrite (proj2 (Z.leb_gt 3 (n - 1))) by lia.
Qed.

(** The page of the whole script when the controls are created: the three
    sections in order, each after its header. *)
Lemma app_page (w : world) (i : inputs) :
  4 ≤ in_n i →
  ∃ body3 out,
    app w i [] =
      ([StHeader header1] ++ (section1 (in_n i) (in_k i) []).1
       ++ [StHeader header2] ++ (section2 (in_msg i) []).1
       ++ StHeader header3 :: body3, out).
Proof.
  intros Hn. destruct (controls_created (in_n i) (in_k i) Hn) as [Hcn Hck].
  unfold app, mbind, Script_bind, eval. unfold show at 1. simpl.
  rewrite Hck. rewrite section2_extends.
  destruct (section3_extends w (in_num_qubits i)
              (([StHeader header1;
                 StSuccess ("Minimum Distance (d) = n − k + 1 = **"
                            +:+ Py.str (d (in_n i) (in_k i)) +:+ "**");
                 StHeader header2] ++ (section2 (in_msg i) []).1)
               ++ [StHeader header3])) as (body3 & out & ->).
  exists body3, out. f_equal. rewrite <- !app_assoc. done.
Qed.

(** The page when the control for [k] cannot be created. *)
Lemma app_stops (w : world) (i : inputs) :
  in_n i < 4 → app w i [] = ([StHeader header1], None).
Proof.
  intros Hn. unfold app, mbind, Script_bind, eval. unfold show at 1. simpl.
  by rewrite (control_k_raises _ _ Hn).
Qed.

Lemma app_section2_body (w : world) (i : inputs) :
  4 ≤ in_n i →
  section_body header2 (app w i []).1 = (section2 (in_msg i) []).1.
Proof.
  intros Hn. destruct (app_page w i Hn) as (body3 & out & ->).
  unfold section1, show. simpl.
  apply until_header_app, section2_no_header.
Qed.

(** A token is rejected as soon as, once trimmed, it is empty or holds a
    character that is neither a digit, an underscore nor a sign. *)
Lemma int_empty (s : string) : Py.strip s = EmptyString → Py.int s = None.
Proof. intros Hs. unfold Py.int. rewrite Hs. by destruct (_ <=? _)%nat. Qed.

Lemma int_foreign (c : ascii) (s : string) :
  In c (list_ascii_of_string (Py.strip s)) →
  Py.digit_value c = None → c ≠ "_"%char → c ≠ "+"%char → c ≠ "-"%char →
  Py.int s = None.
Proof.
  intros Hin Hd Hu Hplus Hminus. unfold Py.int.
  destruct (_ <=? _)%nat; [|done].
  destruct (Py.strip s) as [|c0 r]; [done|].
  destruct (Ascii.eqb_spec c0 "+") as [->|_].
  - destruct Hin as [Heq|Hin]; [by subst|]. by apply (int_digits_foreign c).
  - destruct (Ascii.eqb_spec c0 "-") as [->|_].
    + destruct Hin as [Heq|Hin]; [by subst|].
      by rewrite (int_digits_foreign c).
    + by apply (int_digits_foreign c).
Qed.


(** * The claims *)

(** C1: for a non-empty coefficient list [a0..am] and an evaluation point
    [x] in [1 .. m+3], the code word is produced, its point number [x] is
    [x] itself, and its entry for [x] is the sum of [a_i * x^i] over
    unbounded integers, with no reduction. *)
Theorem codeword_entry_exact (message : list Z) (x : Z) :
  message ≠ [] → 1 ≤ x ≤ Py.len message + 2 →
  ∃ cw, codeword message = Some cw
        ∧ eval_points message !! Z.to_nat (x - 1) = Some x
        ∧ cw !! Z.to_nat (x - 1) = Some (poly_value message x).
Proof.
  intros _ Hx. unfold Py.len in Hx.
  assert (eval_points message !! Z.to_nat (x - 1) = Some x) as Hpt.
  { rewrite eval_points_lookup by lia. f_equal. lia. }
  exists (poly_value message <$> eval_points message).
  split; [apply codeword_fmap|]. split; [done|].
  by rewrite list_lookup_fmap, Hpt.
Qed.

Lemma codeword_entry_exact_witness :
  [3; 5; 2] ≠ [] ∧ 1 ≤ 4 ≤ Py.len [3; 5; 2] + 2 ∧
  ∃ cw, codeword [3; 5; 2] = Some cw
        ∧ eval_points [3; 5; 2] !! Z.to_nat (4 - 1) = Some 4
        ∧ cw !! Z.to_nat (4 - 1) = Some (poly_value [3; 5; 2] 4).
Proof.
  split; [discriminate|]. split; [vm_compute; split; discriminate|].
  apply (codeword_entry_exact [3; 5; 2] 4); [discriminate|].
  vm_compute; split; discriminate.
Defined.

(** The values are not reduced: coefficients beyond 64 bits are kept. *)
Example codeword_large :
  codeword [18446744073709551616; 1]
  = Some [18446744073709551617; 18446744073709551618;
          18446744073709551619; 18446744073709551620].
Proof. vm_compute. reflexivity. Qed.



(** C3: for a non-empty coefficient list of length [m+1] the evaluation
    points are exactly [1; 2; ...; m+3], in increasing order; there are two
    more points than coefficients, and the code word is as long as the
    list of points. *)
Theorem eval_points_one_to_len_plus_two (message : list Z) :
  message ≠ [] →
  eval_points message = Z.of_nat <$> seq 1 (length message + 2)
  ∧ (∀ j x, eval_points message !! j = Some x → x = Z.of_nat j + 1)
  ∧ length (eval_points message) = (length message + 2)%nat
  ∧ ∃ cw, codeword message = Some cw
          ∧ length cw = length (eval_points message).
Proof.
  intros _. split; [apply eval_points_seq|].
  assert (length (eval_points message) = (length message + 2)%nat) as Hlen.
  { by rewrite eval_points_seq, length_fmap, length_seq. }
  split; [|split; [done|]].
  - intros j x Hj. pose proof (lookup_lt_Some _ _ _ Hj) as Hlt.
    rewrite eval_points_lookup in Hj by lia. congruence.
  - exists (poly_value message <$> eval_points message).
    split; [apply codeword_fmap|]. by rewrite length_fmap.
Qed.

Lemma eval_points_one_to_len_plus_two_witness :
  [3; 5; 2] ≠ [] ∧
  eval_points [3; 5; 2] = Z.of_nat <$> seq 1 (length [3; 5; 2] + 2)
  ∧ (∀ j x, eval_points [3; 5; 2] !! j = Some x → x = Z.of_nat j + 1)
  ∧ length (eval_points [3; 5; 2]) = (length [3; 5; 2] + 2)%nat
  ∧ ∃ cw, codeword [3; 5; 2] = Some cw
          ∧ length cw = length (eval_points [3; 5; 2]).
Proof.
  split; [discriminate|].
  apply (eval_points_one_to_len_plus_two [3; 5; 2]). discriminate.
Defined.

(** C4: when some comma separated token, once trimmed, is not accepted by
    [int] (an empty token included), the message does not parse and the
    section shows nothing but the one generic error (the script's text is
    "Please enter valid integers." with a final full stop): no polynomial,
    no points, no code word.  No token is skipped: see
    [parse_message_tokens]. *)
Theorem section2_malformed_token_fails (msg tok : string) :
  tok ∈ Py.split "," msg → Py.int (Py.strip tok) = None →
  parse_message msg = None
  ∧ section2 msg [] = ([StError "Please enter valid integers."], Some tt).
Proof.
  intros Hin Hbad.
  pose proof (parse_message_bad_token msg tok Hin Hbad) as Hp.
  split; [done|]. by rewrite (section2_unparsed msg [] Hp).
Qed.

Lemma section2_malformed_token_fails_witness :
  "a" ∈ Py.split "," "a,b,c" ∧ Py.int (Py.strip "a") = None ∧
  parse_message "a,b,c" = None
  ∧ section2 "a,b,c" [] = ([StError "Please enter valid integers."], Some tt).
Proof.
  assert ("a" ∈ Py.split "," "a,b,c") as Hin by (simpl; constructor).
  split; [exact Hin|]. split; [reflexivity|].
  apply (section2_malformed_token_fails "a,b,c" "a" Hin). reflexivity.
Defined.

Example section2_empty_token :
  section2 "3,,2" [] = ([StError "Please enter valid integers."], Some tt).
Proof. reflexivity. Qed.

Example section2_empty_text :
  section2 "" [] = ([StError "Please enter valid integers."], Some tt).
Proof. reflexivity. Qed.

(** C5: for [numQubits] in [2..5] the circuit has that many quantum and
    classical bits, and its instructions are, in order: [H] on the qubits
    [0 .. n-1], then [CX i (i+1)] for [i = 0 .. n-2], then the measurement
    of every qubit [i] into the classical bit [i]; nothing else. *)
Theorem circuit_structure (nq : Z) :
  2 ≤ nq ≤ 5 →
  build_circuit nq
  = Some (mkCircuit (Z.to_nat nq) (Z.to_nat nq)
            ((H <$> seq 0 (Z.to_nat nq))
             ++ ((λ i, CX i (S i)) <$> seq 0 (Z.to_nat nq - 1))
             ++ ((λ i, Measure i i) <$> seq 0 (Z.to_nat nq)))).
Proof. intros Hnq. apply build_circuit_shape. lia. Qed.

Lemma circuit_structure_witness :
  2 ≤ 3 ≤ 5 ∧
  build_circuit 3
  = Some (mkCircuit (Z.to_nat 3) (Z.to_nat 3)
            ((H <$> seq 0 (Z.to_nat 3))
             ++ ((λ i, CX i (S i)) <$> seq 0 (Z.to_nat 3 - 1))
             ++ ((λ i, Measure i i) <$> seq 0 (Z.to_nat 3)))).
Proof. split; [lia|]. apply (circuit_structure 3). lia. Defined.

Example circuit_2 :
  build_circuit 2
  = Some (mkCircuit 2 2 [H 0; H 1; CX 0 1; Measure 0 0; Measure 1 1]).
Proof. reflexivity. Qed.

Example circuit_5 :
  build_circuit 5
  = Some (mkCircuit 5 5
            [H 0; H 1; H 2; H 3; H 4; CX 0 1; CX 1 2; CX 2 3; CX 3 4;
             Measure 0 0; Measure 1 1; Measure 2 2; Measure 3 3; Measure 4 4]).
Proof. reflexivity. Qed.

(** C6: for [numQubits] in [2..5] and whatever the measurements yield, the
    circuit is built and its 1024 shots give a counts mapping whose values
    are non-negative and add up to 1024, with keys of length [numQubits]. *)
Theorem counts_sum_and_key_width (measured : nat → nat → bool) (nq : Z) :
  2 ≤ nq ≤ 5 →
  ∃ qc, build_circuit nq = Some qc
        ∧ counts_total (Aer.get_counts measured qc shots) = 1024
        ∧ ∀ key v, Aer.get_counts measured qc shots !! key = Some v →
            0 ≤ v ∧ String.length key = Z.to_nat nq.
Proof.
  intros Hnq. eexists. split; [apply build_circuit_shape; lia|].
  destruct (get_counts_spec measured
              (mkCircuit (Z.to_nat nq) (Z.to_nat nq)
                 ((H <$> seq 0 (Z.to_nat nq))
                  ++ ((λ i, CX i (S i)) <$> seq 0 (Z.to_nat nq - 1))
                  ++ ((λ i, Measure i i) <$> seq 0 (Z.to_nat nq))))
              shots) as [Htotal Hkeys]; [done|].
  split; [exact Htotal|]. intros key v Hv.
  destruct (Hkeys key v Hv) as [Hpos Hlen]. split; [lia|exact Hlen].
Qed.

Lemma counts_sum_and_key_width_witness :
  2 ≤ 3 ≤ 5 ∧
  ∃ qc, build_circuit 3 = Some qc
        ∧ counts_total (Aer.get_counts (λ s p, Nat.even (s + p)) qc shots) = 1024
        ∧ ∀ key v, Aer.get_counts (λ s p, Nat.even (s + p)) qc shots !! key = Some v →
            0 ≤ v ∧ String.length key = Z.to_nat 3.
Proof.
  split; [lia|].
  apply (counts_sum_and_key_width (λ s p, Nat.even (s + p)) 3). lia.
Defined.

(** C7: the text "3,5,2" parses to [3; 5; 2], the points are [1 .. 5] and
    the code word is [10; 21; 36; 55; 78], the values of [3 + 5x + 2x^2]. *)
Theorem scenario_3_5_2 :
  parse_message "3,5,2" = Some [3; 5; 2]
  ∧ eval_points [3; 5; 2] = [1; 2; 3; 4; 5]
  ∧ codeword [3; 5; 2] = Some [10; 21; 36; 55; 78]
  ∧ (λ x, 3 + 5 * x + 2 * x ^ 2) <$> [1; 2; 3; 4; 5] = [10; 21; 36; 55; 78]
  ∧ section2 "3,5,2" [] =
      ([StWrite "**Message Polynomial:**";
        StCode "m(x) = 3x^0 + 5x^1 + 2x^2";
        StWriteList "**Evaluation Points:**" [1; 2; 3; 4; 5];
        StSuccess "Encoded RS Codeword: [10, 21, 36, 55, 78]"], Some tt).
Proof. repeat split; reflexivity. Qed.

(** C8: for coefficients [a0..am] obtained by a successful parse (hence
    non-empty), the polynomial shown is the terms [a_i x^i], [i = 0 .. m],
    joined by " + "; the first term is written [a0 x^0], not as a bare
    constant. *)
Theorem poly_str_rendering (msg : string) (message : list Z) :
  parse_message msg = Some message →
  let terms := imap (λ i a, Py.str a +:+ "x^" +:+ Py.str (Z.of_nat i)) message in
  poly_str message = Some (Py.join " + " terms)
  ∧ (∃ a0, head message = Some a0 ∧ head terms = Some (Py.str a0 +:+ "x^0"))
  ∧ StCode ("m(x) = " +:+ Py.join " + " terms) ∈ (section2 msg []).1.
Proof.
  intros Hp terms. split; [|split].
  - unfold poly_str.
    by rewrite poly_terms_imap by (by apply (parse_message_fits msg)).
  - pose proof (parse_message_nonempty _ _ Hp) as Hne.
    subst terms. destruct message as [|a0 rest]; [done|]. by exists a0.
  - rewrite (section2_parsed _ _ _ Hp). simpl. subst terms.
    apply list_elem_of_further, list_elem_of_here.
Qed.

Lemma poly_str_rendering_witness :
  parse_message "3,5,2" = Some [3; 5; 2] ∧
  let terms := imap (λ i a, Py.str a +:+ "x^" +:+ Py.str (Z.of_nat i)) [3; 5; 2] in
  poly_str [3; 5; 2] = Some (Py.join " + " terms)
  ∧ (∃ a0, head [3; 5; 2] = Some a0 ∧ head terms = Some (Py.str a0 +:+ "x^0"))
  ∧ StCode ("m(x) = " +:+ Py.join " + " terms) ∈ (section2 "3,5,2" []).1.
Proof.
  split; [reflexivity|].
  apply (poly_str_rendering "3,5,2" [3; 5; 2]). reflexivity.
Defined.

Example poly_str_352 : poly_str [3; 5; 2] = Some "3x^0 + 5x^1 + 2x^2".
Proof. reflexivity. Qed.

Example poly_str_negative : poly_str [-4; 0] = Some "-4x^0 + 0x^1".
Proof. reflexivity. Qed.

(** C9: what the second section shows is a function of the message text
    alone.  Take two runs of the script in which the section is run, that
    is with [n >= 4] (for [n] of 2 or 3 line 44 raises and the script stops
    before the section, see [app_stops]).  On the same text they show the
    same section, whatever [n], [k], the number of qubits, the simulator's
    random choices and the outcome of the external calls are.  A parsed
    message has one list of points, which is shown, and one code word,
    which is shown whenever line 87 can render it. *)
Theorem section2_independent_of_other_inputs (w1 w2 : world) (i1 i2 : inputs) :
  in_msg i1 = in_msg i2 → 4 ≤ in_n i1 → 4 ≤ in_n i2 →
  section_body header2 (app w1 i1 []).1
  = section_body header2 (app w2 i2 []).1
  ∧ section_body header2 (app w1 i1 []).1 = (section2 (in_msg i1) []).1
  ∧ ∀ message, parse_message (in_msg i1) = Some message →
      parse_message (in_msg i2) = Some message
      ∧ StWriteList "**Evaluation Points:**" (eval_points message)
          ∈ section_body header2 (app w2 i2 []).1
      ∧ ∃ cw, codeword message = Some cw
          ∧ (Forall Py.fits cw →
             StSuccess ("Encoded RS Codeword: " +:+ Py.str_list cw)
               ∈ section_body header2 (app w2 i2 []).1).
Proof.
  intros Hmsg Hn1 Hn2. rewrite !app_section2_body by done. rewrite <- Hmsg.
  split; [done|]. split; [done|]. intros message Hp. split; [done|].
  rewrite (section2_parsed _ _ _ Hp). simpl. split.
  - do 2 apply list_elem_of_further. apply list_elem_of_here.
  - exists (poly_value message <$> eval_points message).
    split; [apply codeword_fmap|]. intros Hfit.
    rewrite (fmt_list_fits _ Hfit).
    do 3 apply list_elem_of_further. apply list_elem_of_here.
Qed.

Lemma section2_independent_of_other_inputs_witness :
  in_msg (mkInputs 7 3 "3,5,2" 3) = in_msg (mkInputs 10 2 "3,5,2" 5)
  ∧ 4 ≤ in_n (mkInputs 7 3 "3,5,2" 3) ∧ 4 ≤ in_n (mkInputs 10 2 "3,5,2" 5) ∧
  section_body header2
    (app (mkWorld (λ _ _, false) true true true) (mkInputs 7 3 "3,5,2" 3) []).1
  = section_body header2
      (app (mkWorld (λ s p, Nat.even (s + p)) true false true)
           (mkInputs 10 2 "3,5,2" 5) []).1.
Proof.
  split; [reflexivity|]. split; [simpl; lia|]. split; [simpl; lia|].
  apply (section2_independent_of_other_inputs
           (mkWorld (λ _ _, false) true true true)
           (mkWorld (λ s p, Nat.even (s + p)) true false true)
           (mkInputs 7 3 "3,5,2" 3) (mkInputs 10 2 "3,5,2" 5));
    [reflexivity|simpl; lia|simpl; lia].
Defined.

(** C10: for a non-empty coefficient list the first evaluation point is 1
    and the first entry of the code word is [a0 + a1 + ... + am]. *)
Theorem codeword_first_is_coefficient_sum (message : list Z) :
  message ≠ [] →
  head (eval_points message) = Some 1
  ∧ ∃ cw, codeword message = Some cw ∧ head cw = Some (foldr Z.add 0 message).
Proof.
  intros _.
  assert (eval_points message = 1 :: (Z.of_nat <$> seq 2 (length message + 1)))
    as Hpts.
  { rewrite eval_points_seq.
    by replace (length message + 2)%nat with (S (length message + 1)) by lia. }
  split; [by rewrite Hpts|].
  exists (poly_value message <$> eval_points message).
  split; [apply codeword_fmap|]. rewrite Hpts. simpl.
  unfold poly_value. by rewrite poly_from_one.
Qed.

Lemma codeword_first_is_coefficient_sum_witness :
  [3; 5; 2] ≠ [] ∧
  head (eval_points [3; 5; 2]) = Some 1
  ∧ ∃ cw, codeword [3; 5; 2] = Some cw ∧ head cw = Some (foldr Z.add 0 [3; 5; 2]).
Proof.
  split; [discriminate|].
  apply (codeword_first_is_coefficient_sum [3; 5; 2]). discriminate.
Defined.

(** * Further properties of the code *)

(** ** The polynomial behind the code word *)

Lemma poly_from_shift (i : nat) (a : list Z) (x : Z) :
  poly_from (S i) a x = x * poly_from i a x.
Proof.
  revert i. induction a as [|c a IH]; intros i; simpl; [lia|].
  rewrite IH. rewrite Nat2Z.inj_succ, Z.pow_succ_r by lia. lia.
Qed.

Lemma poly_value_cons (c : Z) (a : list Z) (x : Z) :
  poly_value (c :: a) x = c + x * poly_value a x.
Proof.
  unfold poly_value. simpl. rewrite poly_from_shift. lia.
Qed.

Lemma poly_value_nil (x : Z) : poly_value [] x = 0.
Proof. done. Qed.

Lemma poly_value_add (a b : list Z) (x : Z) :
  length a = length b →
  poly_value (zip_with Z.add a b) x = poly_value a x + poly_value b x.
Proof.
  revert b. induction a as [|c a IH]; intros [|e b] Hlen; simplify_eq/=; [done|].
  rewrite !poly_value_cons, IH by done. lia.
Qed.

Lemma poly_value_sub (a b : list Z) (x : Z) :
  length a = length b →
  poly_value (zip_with Z.sub a b) x = poly_value a x - poly_value b x.
Proof.
  revert b. induction a as [|c a IH]; intros [|e b] Hlen; simplify_eq/=; [done|].
  rewrite !poly_value_cons, IH by done. lia.
Qed.

Lemma poly_value_scale (k : Z) (a : list Z) (x : Z) :
  poly_value (Z.mul k <$> a) x = k * poly_value a x.
Proof.
  induction a as [|c a IH]; csimpl; [rewrite !poly_value_nil; lia|].
  rewrite !poly_value_cons, IH. lia.
Qed.

Lemma poly_value_horner (a : list Z) (x : Z) : poly_value a x = horner a x.
Proof.
  induction a as [|c a IH]; [done|].
  rewrite poly_value_cons, IH. done.
Qed.

Lemma zip_with_sub_zero (a b : list Z) :
  length a = length b → Forall (λ c, c = 0) (zip_with Z.sub a b) → a = b.
Proof.
  revert b. induction a as [|c a IH]; intros [|e b] Hlen Hz; simplify_eq/=; [done|].
  apply Forall_cons in Hz as [Hce Hz]. f_equal; [lia|by apply IH].
Qed.

(** Division by [x - c], on coefficients and on values. *)
Lemma div_linear_length (c : Z) (p : list Z) :
  length (div_linear c p).1 = pred (length p).
Proof.
  induction p as [|a [|b rest] IH]; [done..|].
  change (div_linear c (a :: b :: rest))
    with (let '(q, r) := div_linear c (b :: rest) in (r :: q, a + c * r)).
  destruct (div_linear c (b :: rest)) as [q r]. simpl in *. by rewrite IH.
Qed.

Lemma div_linear_value (c : Z) (p : list Z) (x : Z) :
  poly_value p x
  = (x - c) * poly_value (div_linear c p).1 x + (div_linear c p).2.
Proof.
  induction p as [|a [|b rest] IH].
  - simpl. rewrite poly_value_nil. lia.
  - simpl. rewrite poly_value_cons, !poly_value_nil. lia.
  - change (div_linear c (a :: b :: rest))
      with (let '(q, r) := div_linear c (b :: rest) in (r :: q, a + c * r)).
    rewrite (poly_value_cons a), IH.
    destruct (div_linear c (b :: rest)) as [q r]. simpl.
    rewrite poly_value_cons. lia.
Qed.

Lemma div_linear_zero (c : Z) (p : list Z) :
  Forall (λ a, a = 0) (div_linear c p).1 → (div_linear c p).2 = 0 →
  Forall (λ a, a = 0) p.
Proof.
  induction p as [|a [|b rest] IH]; [done|..].
  - simpl. intros _ ->. by repeat constructor.
  - change (div_linear c (a :: b :: rest))
      with (let '(q, r) := div_linear c (b :: rest) in (r :: q, a + c * r)).
    destruct (div_linear c (b :: rest)) as [q r]. simpl in *.
    intros [-> Hq]%Forall_cons Ha. constructor; [lia|]. by apply IH.
Qed.

(** A polynomial with at least as many distinct roots as coefficients has
    only zero coefficients. *)
Lemma poly_roots_zero (roots p : list Z) :
  NoDup roots → (length p ≤ length roots)%nat →
  (∀ r, r ∈ roots → poly_value p r = 0) →
  Forall (λ a, a = 0) p.
Proof.
  revert p. induction roots as [|r rs IH]; intros p Hnd Hlen Hroots.
  - destruct p; [done|simpl in Hlen; lia].
  - apply NoDup_cons in Hnd as [Hr Hnd].
    pose proof (div_linear_value r p) as Hdiv.
    assert ((div_linear r p).2 = 0) as Hrem.
    { specialize (Hdiv r). rewrite Hroots in Hdiv by left. lia. }
    apply (div_linear_zero r); [|done].
    apply IH; [done|rewrite div_linear_length; simpl in Hlen; lia|].
    intros s Hs. specialize (Hdiv s).
    rewrite Hroots, Hrem in Hdiv by (by right).
    assert (s ≠ r) by (intros ->; done). nia.
Qed.

Lemma eval_points_same_length (a b : list Z) :
  length a = length b → eval_points a = eval_points b.
Proof. intros Hlen. by rewrite !eval_points_seq, Hlen. Qed.

Lemma eval_points_NoDup (message : list Z) : NoDup (eval_points message).
Proof.
  rewrite eval_points_seq. apply NoDup_fmap_2; [|apply NoDup_seq].
  intros i j Hij. lia.
Qed.

Lemma eval_points_length (message : list Z) :
  length (eval_points message) = (length message + 2)%nat.
Proof. by rewrite eval_points_seq, length_fmap, length_seq. Qed.

Lemma zip_with_fmap_same (h f g : Z → Z) (op : Z → Z → Z) (l : list Z) :
  (∀ x, op (f x) (g x) = h x) →
  zip_with op (f <$> l) (g <$> l) = h <$> l.
Proof.
  intros Hop. induction l as [|x l IH]; csimpl; [done|]. by rewrite Hop, IH.
Qed.

Lemma hamming_fmap (f g : Z → Z) (l : list Z) :
  (hamming (f <$> l) (g <$> l) + length (filter (λ x, f x = g x) l))%nat
  = length l.
Proof.
  induction l as [|x l IH]; csimpl; [done|].
  rewrite filter_cons. destruct (decide (f x = g x)); simpl; lia.
Qed.

Lemma poly_value_nonneg (a : list Z) (x : Z) :
  Forall (λ c, 0 ≤ c) a → 0 ≤ x → 0 ≤ poly_value a x.
Proof.
  intros Ha Hx. induction Ha as [|c a Hc _ IH]; [done|].
  rewrite poly_value_cons. nia.
Qed.

Lemma poly_value_mono (a : list Z) (x y : Z) :
  Forall (λ c, 0 ≤ c) a → 0 ≤ x ≤ y → poly_value a x ≤ poly_value a y.
Proof.
  intros Ha Hxy. induction Ha as [|c a Hc Ha IH]; [done|].
  rewrite !poly_value_cons.
  pose proof (poly_value_nonneg a x Ha ltac:(lia)). nia.
Qed.

(** Messages of one length whose code words agree at as many points as
    there are coefficients are the same message. *)
Lemma agree_enough_equal (a b : list Z) :
  length a = length b →
  (length a ≤ length (filter (λ x, poly_value a x = poly_value b x)
                             (eval_points a)))%nat →
  a = b.
Proof.
  intros Hlen Hagree. apply zip_with_sub_zero; [done|].
  apply (poly_roots_zero
           (filter (λ x, poly_value a x = poly_value b x) (eval_points a))).
  - apply NoDup_filter, eval_points_NoDup.
  - rewrite length_zip_with. lia.
  - intros r [Hr _]%list_elem_of_filter. rewrite poly_value_sub by done. lia.
Qed.

(** * Further properties, stated *)

(** X1: the second section shows the error banner, and only it, exactly
    when some token is rejected by [int]. *)
Theorem section2_error_iff_bad_token (msg : string) :
  section2 msg [] = ([StError "Please enter valid integers."], Some tt)
  ↔ ∃ tok, tok ∈ Py.split "," msg ∧ Py.int (Py.strip tok) = None.
Proof.
  split.
  - intros Hpage. destruct (parse_message msg) as [message|] eqn:Hp.
    + rewrite (section2_parsed _ _ _ Hp) in Hpage. discriminate.
    + apply mapM_None_1, Exists_exists in Hp. exact Hp.
  - intros (tok & Hin & Hbad).
    by rewrite (section2_unparsed msg [] (parse_message_bad_token _ _ Hin Hbad)).
Qed.

(** X2: when the message parses and every entry of its code word is
    within the digit limit, the section completes and shows exactly four
    elements: the caption, the polynomial, the evaluation points and the
    code word. *)
Theorem section2_success_page (msg : string) (message cw : list Z) :
  parse_message msg = Some message →
  codeword message = Some cw → Forall Py.fits cw →
  section2 msg [] =
    ([StWrite "**Message Polynomial:**";
      StCode ("m(x) = " +:+ Py.join " + "
                (imap (λ j a, Py.str a +:+ "x^" +:+ Py.str (Z.of_nat j)) message));
      StWriteList "**Evaluation Points:**" (eval_points message);
      StSuccess ("Encoded RS Codeword: " +:+ Py.str_list cw)],
     Some tt).
Proof.
  intros Hp Hcw Hfit. rewrite codeword_fmap in Hcw. injection Hcw as <-.
  by rewrite (section2_parsed _ _ _ Hp), (fmt_list_fits _ Hfit).
Qed.

Lemma section2_success_page_witness :
  parse_message " 4, -1 ,+2_0" = Some [4; -1; 20]
  ∧ codeword [4; -1; 20] = Some [23; 82; 181; 320; 499]
  ∧ Forall Py.fits [23; 82; 181; 320; 499] ∧
  section2 " 4, -1 ,+2_0" [] =
    ([StWrite "**Message Polynomial:**";
      StCode ("m(x) = " +:+ Py.join " + "
                (imap (λ j a, Py.str a +:+ "x^" +:+ Py.str (Z.of_nat j)) [4; -1; 20]));
      StWriteList "**Evaluation Points:**" (eval_points [4; -1; 20]);
      StSuccess ("Encoded RS Codeword: " +:+ Py.str_list [23; 82; 181; 320; 499])],
     Some tt).
Proof.
  assert (Forall Py.fits [23; 82; 181; 320; 499]) as Hfit.
  { repeat (constructor; [apply Nat.leb_le; reflexivity|]). constructor. }
  split; [reflexivity|]. split; [reflexivity|]. split; [exact Hfit|].
  exact (section2_success_page " 4, -1 ,+2_0" [4; -1; 20] _
           eq_refl eq_refl Hfit).
Defined.

(** X3: a parsed message has one coefficient per token: one more than the
    text has commas, so the degree is the number of commas. *)
Theorem coefficients_one_more_than_commas (msg : string) (message : list Z) :
  parse_message msg = Some message →
  length message = S (count_char "," msg)
  ∧ Py.len message - 1 = Z.of_nat (count_char "," msg).
Proof.
  intros Hp%parse_message_tokens. apply Forall2_length in Hp.
  rewrite split_length in Hp. unfold Py.len. split; lia.
Qed.

Lemma coefficients_one_more_than_commas_witness :
  parse_message "3,5,2" = Some [3; 5; 2] ∧
  length [3; 5; 2] = S (count_char "," "3,5,2")
  ∧ Py.len [3; 5; 2] - 1 = Z.of_nat (count_char "," "3,5,2").
Proof.
  split; [reflexivity|].
  apply (coefficients_one_more_than_commas "3,5,2" [3; 5; 2]). reflexivity.
Defined.

(** X4: splitting at the commas loses nothing: the pieces, joined by
    commas again, are the text, and there is always at least one piece. *)
Theorem tokens_rejoin (msg : string) :
  Py.join "," (Py.split "," msg) = msg ∧ Py.split "," msg ≠ [].
Proof. split; [apply join_split|apply split_nonempty]. Qed.

Lemma parse_join_str (l : list Z) :
  l ≠ [] → Forall Py.fits l →
  parse_message (Py.join "," (Py.str <$> l)) = Some l
  ∧ parse_message (Py.join ", " (Py.str <$> l)) = Some l.
Proof.
  intros Hne Hfit. destruct l as [|z l]; [done|]. rewrite fmap_cons.
  apply Forall_cons in Hfit as [Hz Hl]. rewrite Forall_forall in Hl.
  assert (Forall (λ u, count_char "," u = 0%nat) (Py.str z :: (Py.str <$> l)))
    as Hcommas.
  { constructor; [apply str_no_comma|].
    apply Forall_fmap, Forall_forall. intros y _. apply str_no_comma. }
  unfold parse_message. split.
  - rewrite (split_join EmptyString) by done.
    apply mapM_Some. constructor.
    + by rewrite strip_strip_str, int_str.
    + rewrite <- list_fmap_compose. apply Forall2_fmap_l, Forall_Forall2_diag.
      apply Forall_forall. intros y Hy. simpl.
      by rewrite string_app_nil, strip_strip_str, int_str by (by apply Hl).
  - rewrite (split_join " ") by done.
    apply mapM_Some. constructor.
    + by rewrite strip_strip_str, int_str.
    + rewrite <- list_fmap_compose. apply Forall2_fmap_l, Forall_Forall2_diag.
      apply Forall_forall. intros y Hy. simpl.
      rewrite string_app_cons, string_app_nil, strip_space_before.
      by rewrite strip_strip_str, int_str by (by apply Hl).
Qed.

(** X5: a non-empty list of integers of at most [max_str_digits] digits
    each, written in decimal and separated by commas, with or without a
    space after each comma, parses back to the same list. *)
Theorem parse_message_round_trip (l : list Z) :
  l ≠ [] → Forall Py.fits l →
  parse_message (Py.join "," (Py.str <$> l)) = Some l
  ∧ parse_message (Py.join ", " (Py.str <$> l)) = Some l.
Proof. apply parse_join_str. Qed.

Lemma parse_message_round_trip_witness :
  [10; -21; 0] ≠ [] ∧ Forall Py.fits [10; -21; 0] ∧
  parse_message (Py.join "," (Py.str <$> [10; -21; 0])) = Some [10; -21; 0]
  ∧ parse_message (Py.join ", " (Py.str <$> [10; -21; 0])) = Some [10; -21; 0].
Proof.
  assert (Forall Py.fits [10; -21; 0]) as Hfit.
  { repeat (constructor; [apply Nat.leb_le; reflexivity|]). constructor. }
  split; [discriminate|]. split; [exact Hfit|].
  apply (parse_message_round_trip [10; -21; 0]); [discriminate|exact Hfit].
Defined.

(** X6: when the section shows the code word, that is when line 87 can
    render it, the text shown between the brackets is itself an accepted
    message: it parses back to the code word. *)
Theorem codeword_text_parses_back (message cw : list Z) (text : string) :
  codeword message = Some cw → Py.fmt_list cw = Some text →
  text = "[" +:+ Py.join ", " (Py.str <$> cw) +:+ "]"
  ∧ parse_message (Py.join ", " (Py.str <$> cw)) = Some cw.
Proof.
  intros Hcw [Hfit ->]%fmt_list_Some. split; [done|].
  apply parse_join_str; [|done]. intros ->.
  rewrite codeword_fmap in Hcw. injection Hcw as Hcw.
  apply (f_equal length) in Hcw.
  rewrite length_fmap, eval_points_length in Hcw. simpl in Hcw. lia.
Qed.

Lemma codeword_text_parses_back_witness :
  codeword [3; 5; 2] = Some [10; 21; 36; 55; 78]
  ∧ Py.fmt_list [10; 21; 36; 55; 78] = Some "[10, 21, 36, 55, 78]" ∧
  "[10, 21, 36, 55, 78]"
  = "[" +:+ Py.join ", " (Py.str <$> [10; 21; 36; 55; 78]) +:+ "]"
  ∧ parse_message (Py.join ", " (Py.str <$> [10; 21; 36; 55; 78]))
    = Some [10; 21; 36; 55; 78].
Proof.
  split; [reflexivity|]. split; [reflexivity|].
  apply (codeword_text_parses_back [3; 5; 2] [10; 21; 36; 55; 78]
           "[10, 21, 36, 55, 78]"); reflexivity.
Defined.

(** X7: white space around a token does not matter: a token padded on both
    sides with white space is converted like the bare token. *)
Theorem token_whitespace_ignored (w1 w2 tok : string) :
  (∀ c, In c (list_ascii_of_string w1) → Py.isspace c = true) →
  (∀ c, In c (list_ascii_of_string w2) → Py.isspace c = true) →
  Py.int (Py.strip (w1 +:+ tok +:+ w2)) = Py.int (Py.strip tok).
Proof.
  intros Hw1 Hw2. f_equal.
  transitivity (Py.strip (tok +:+ w2)); [|by apply strip_app_spaces].
  unfold Py.strip. by rewrite lstrip_app_spaces.
Qed.

Lemma token_whitespace_ignored_witness :
  (∀ c, In c (list_ascii_of_string "  ") → Py.isspace c = true) ∧
  (∀ c, In c (list_ascii_of_string " ") → Py.isspace c = true) ∧
  Py.int (Py.strip ("  " +:+ "-12" +:+ " ")) = Py.int (Py.strip "-12").
Proof.
  assert (∀ c, In c (list_ascii_of_string "  ") → Py.isspace c = true) as H1.
  { simpl. intros c [<-|[<-|[]]]; reflexivity. }
  assert (∀ c, In c (list_ascii_of_string " ") → Py.isspace c = true) as H2.
  { simpl. intros c [<-|[]]; reflexivity. }
  split; [exact H1|]. split; [exact H2|].
  exact (token_whitespace_ignored "  " " " "-12" H1 H2).
Defined.

(** X8: the encoding is additive: for two messages of one length the code
    word of the coefficient-wise sum is the entry-wise sum of the two code
    words. *)
Theorem codeword_additive (a b : list Z) :
  length a = length b →
  ∃ ca cb, codeword a = Some ca ∧ codeword b = Some cb
           ∧ codeword (zip_with Z.add a b) = Some (zip_with Z.add ca cb).
Proof.
  intros Hlen.
  exists (poly_value a <$> eval_points a), (poly_value b <$> eval_points b).
  split; [apply codeword_fmap|]. split; [apply codeword_fmap|].
  rewrite codeword_fmap. f_equal.
  rewrite (eval_points_same_length (zip_with Z.add a b) a)
    by (rewrite length_zip_with; lia).
  rewrite <- (eval_points_same_length a b Hlen).
  symmetry. apply zip_with_fmap_same. intros x. by rewrite poly_value_add.
Qed.

Lemma codeword_additive_witness :
  length [3; 5; 2] = length [1; -5; 7] ∧
  ∃ ca cb, codeword [3; 5; 2] = Some ca ∧ codeword [1; -5; 7] = Some cb
           ∧ codeword (zip_with Z.add [3; 5; 2] [1; -5; 7])
             = Some (zip_with Z.add ca cb).
Proof.
  split; [reflexivity|]. apply (codeword_additive [3; 5; 2] [1; -5; 7]).
  reflexivity.
Defined.

(** X9: the encoding commutes with scaling: multiplying every coefficient
    by [k] multiplies every entry of the code word by [k]. *)
Theorem codeword_scale (k : Z) (a : list Z) :
  codeword (Z.mul k <$> a) = (λ cw : list Z, Z.mul k <$> cw) <$> codeword a.
Proof.
  rewrite !codeword_fmap. simpl. f_equal.
  rewrite (eval_points_same_length (Z.mul k <$> a) a) by apply length_fmap.
  rewrite <- list_fmap_compose. apply list_fmap_ext.
  intros _ x _. simpl. apply poly_value_scale.
Qed.

(** X10: the encoding is injective: two messages with the same code word
    are the same message. *)
Theorem codeword_injective (a b : list Z) :
  codeword a = codeword b → a = b.
Proof.
  rewrite !codeword_fmap. intros [= Hcw].
  assert (length a = length b) as Hlen.
  { apply (f_equal length) in Hcw.
    rewrite !length_fmap, !eval_points_length in Hcw. lia. }
  rewrite <- (eval_points_same_length a b Hlen) in Hcw.
  apply agree_enough_equal; [done|].
  pose proof (hamming_fmap (poly_value a) (poly_value b) (eval_points a)) as Hh.
  rewrite <- Hcw in Hh.
  assert (∀ u, hamming u u = 0%nat) as Hrefl.
  { induction u as [|x u IH]; simpl; [done|]. by rewrite decide_True. }
  rewrite Hrefl, eval_points_length in Hh. lia.
Qed.

Lemma codeword_injective_witness :
  codeword [3; 5; 2] = codeword (Z.add 1 <$> [2; 4; 1]) ∧
  [3; 5; 2] = Z.add 1 <$> [2; 4; 1].
Proof.
  split; [reflexivity|].
  apply (codeword_injective [3; 5; 2] (Z.add 1 <$> [2; 4; 1])). reflexivity.
Defined.

(** X11: the code meets the distance of the first section: two different
    messages of one length have code words that differ in at least
    [d n k] positions, for [n] the length of the code word and [k] that of
    the message, that is in at least 3 positions. *)
Theorem codeword_distance (a b : list Z) :
  length a = length b → a ≠ b →
  ∃ ca cb, codeword a = Some ca ∧ codeword b = Some cb
           ∧ d (Py.len ca) (Py.len a) = 3
           ∧ d (Py.len ca) (Py.len a) ≤ Z.of_nat (hamming ca cb).
Proof.
  intros Hlen Hne.
  exists (poly_value a <$> eval_points a), (poly_value b <$> eval_points b).
  split; [apply codeword_fmap|]. split; [apply codeword_fmap|].
  assert (d (Py.len (poly_value a <$> eval_points a)) (Py.len a) = 3) as Hd.
  { unfold d, Py.len. rewrite length_fmap, eval_points_length. lia. }
  split; [done|]. rewrite Hd.
  rewrite <- (eval_points_same_length a b Hlen).
  pose proof (hamming_fmap (poly_value a) (poly_value b) (eval_points a)) as Hh.
  rewrite eval_points_length in Hh.
  destruct (decide (length a ≤ length (filter (λ x, poly_value a x = poly_value b x)
                                            (eval_points a)))%nat) as [Hagree|Hfew].
  - by destruct Hne; apply agree_enough_equal.
  - lia.
Qed.

Lemma codeword_distance_witness :
  length [3; 5; 2] = length [3; 5; 3] ∧ [3; 5; 2] ≠ [3; 5; 3] ∧
  ∃ ca cb, codeword [3; 5; 2] = Some ca ∧ codeword [3; 5; 3] = Some cb
           ∧ d (Py.len ca) (Py.len [3; 5; 2]) = 3
           ∧ d (Py.len ca) (Py.len [3; 5; 2]) ≤ Z.of_nat (hamming ca cb).
Proof.
  split; [reflexivity|]. split; [discriminate|].
  apply (codeword_distance [3; 5; 2] [3; 5; 3]); [reflexivity|discriminate].
Defined.

(** X12: when no coefficient is negative, the code word has no negative
    entry and never decreases from one evaluation point to the next. *)
Theorem codeword_monotone (message : list Z) :
  Forall (λ c, 0 ≤ c) message →
  ∃ cw, codeword message = Some cw
        ∧ Forall (λ v, 0 ≤ v) cw
        ∧ ∀ i j u v, (i ≤ j)%nat → cw !! i = Some u → cw !! j = Some v → u ≤ v.
Proof.
  intros Hpos. exists (poly_value message <$> eval_points message).
  split; [apply codeword_fmap|]. split.
  - apply Forall_fmap, Forall_forall. intros x Hx. simpl.
    apply poly_value_nonneg; [done|].
    apply list_elem_of_lookup in Hx as [j Hj].
    pose proof (lookup_lt_Some _ _ _ Hj) as Hlt.
    rewrite eval_points_length in Hlt.
    rewrite eval_points_lookup in Hj by done. simplify_eq. lia.
  - intros i j u v Hij Hu Hv.
    rewrite list_lookup_fmap in Hu, Hv.
    destruct (eval_points message !! i) as [x|] eqn:Hx; [|done].
    destruct (eval_points message !! j) as [y|] eqn:Hy; [|done].
    pose proof (lookup_lt_Some _ _ _ Hx) as Hi.
    pose proof (lookup_lt_Some _ _ _ Hy) as Hj.
    rewrite eval_points_length in Hi, Hj.
    rewrite eval_points_lookup in Hx, Hy by done. simplify_eq/=.
    apply poly_value_mono; [done|lia].
Qed.

Lemma codeword_monotone_witness :
  Forall (λ c, 0 ≤ c) [3; 5; 2] ∧
  ∃ cw, codeword [3; 5; 2] = Some cw
        ∧ Forall (λ v, 0 ≤ v) cw
        ∧ ∀ i j u v, (i ≤ j)%nat → cw !! i = Some u → cw !! j = Some v → u ≤ v.
Proof.
  assert (Forall (λ c, 0 ≤ c) [3; 5; 2]) as Hpos.
  { repeat constructor; discriminate. }
  split; [exact Hpos|]. exact (codeword_monotone [3; 5; 2] Hpos).
Defined.

(** X13: for accepted inputs the distance lies between 2 and [n], and [k]
    is recovered from it as [n - d + 1]. *)
Theorem distance_bounds (n k : Z) :
  n_accepted n = true → k_accepted n k = true →
  2 ≤ d n k ≤ n ∧ k = n - d n k + 1.
Proof.
  unfold n_accepted, k_accepted, d. intros Hn [Hk1 Hk2]%andb_true_iff. lia.
Qed.

Lemma distance_bounds_witness :
  n_accepted 7 = true ∧ k_accepted 7 3 = true ∧
  2 ≤ d 7 3 ≤ 7 ∧ 3 = 7 - d 7 3 + 1.
Proof.
  split; [reflexivity|]. split; [reflexivity|].
  apply (distance_bounds 7 3); reflexivity.
Defined.

(** X14: the circuit construction works for every size, not only the
    slider's: for [n >= 0] it yields the [n] Hadamard gates, the [n - 1]
    chained controlled-NOT gates and the [n] measurements, [3n - 1]
    instructions for [n >= 1]; a negative size raises. *)
Theorem build_circuit_any_size (nq : Z) :
  (0 ≤ nq →
   ∃ qc, build_circuit nq = Some qc
         ∧ data qc = (H <$> seq 0 (Z.to_nat nq))
                     ++ ((λ i, CX i (S i)) <$> seq 0 (Z.to_nat nq - 1))
                     ++ ((λ i, Measure i i) <$> seq 0 (Z.to_nat nq))
         ∧ (1 ≤ nq → Z.of_nat (length (data qc)) = 3 * nq - 1))
  ∧ (nq < 0 → build_circuit nq = None).
Proof.
  split.
  - intros Hnq. eexists. split; [by apply build_circuit_shape|].
    split; [done|]. intros H1. simpl.
    rewrite !length_app, !length_fmap, !length_seq. lia.
  - intros Hneg. unfold build_circuit, Qiskit.new.
    by rewrite decide_False by lia.
Qed.

(** X15: Horner's scheme computes the same code word. *)
Theorem codeword_horner (message : list Z) :
  codeword message = Some (horner message <$> eval_points message).
Proof.
  rewrite codeword_fmap. f_equal. apply list_fmap_ext.
  intros _ x _. apply poly_value_horner.
Qed.

(** X16: a message of a single coefficient is a constant polynomial: its
    code word repeats the coefficient three times. *)
Theorem codeword_single_coefficient (c : Z) :
  codeword [c] = Some [c; c; c].
Proof.
  rewrite codeword_fmap. unfold eval_points. simpl.
  rewrite !poly_value_cons, !poly_value_nil. do 4 f_equal; lia.
Qed.

Lemma spaces_no_comma (w : string) :
  (∀ c, In c (list_ascii_of_string w) → Py.isspace c = true) →
  count_char "," w = 0%nat.
Proof.
  intros Hw. apply count_char_absent. intros c Hc ->.
  by specialize (Hw _ Hc).
Qed.

Lemma int_blank (w : string) :
  (∀ c, In c (list_ascii_of_string w) → Py.isspace c = true) →
  Py.int (Py.strip w) = None.
Proof.
  intros Hw. apply int_empty. unfold Py.strip.
  by rewrite (lstrip_spaces w Hw).
Qed.

Lemma split_after_comma (pre rest t : string) :
  t ∈ Py.split "," rest →
  t ∈ tail (Py.split "," (pre +:+ String "," rest)).
Proof.
  intros Ht. induction pre as [|c pre IH].
  - by rewrite string_app_nil.
  - rewrite string_app_cons. simpl. destruct (Ascii.eqb c ","); simpl.
    + destruct (Py.split "," (pre +:+ String "," rest)) as [|t0 ts]; [done|].
      simpl in IH. by apply list_elem_of_further.
    + by destruct (Py.split "," (pre +:+ String "," rest)).
Qed.

Lemma comma_app (s : string) : "," +:+ s = String "," s.
Proof. done. Qed.

Lemma elem_of_tail {A} (x : A) (l : list A) : x ∈ tail l → x ∈ l.
Proof. destruct l; simpl; [done|]. by apply list_elem_of_further. Qed.

Lemma section2_rejected (msg tok : string) :
  tok ∈ Py.split "," msg → Py.int (Py.strip tok) = None →
  section2 msg [] = ([StError "Please enter valid integers."], Some tt).
Proof.
  intros Hin Hbad.
  by rewrite (section2_unparsed msg [] (parse_message_bad_token _ _ Hin Hbad)).
Qed.

(** X17: a piece that is empty or blank is rejected wherever it stands: a
    blank text, a leading comma, a trailing comma and two commas with only
    white space between them all give the error banner and nothing else. *)
Theorem blank_piece_rejected (w pre post : string) :
  (∀ c, In c (list_ascii_of_string w) → Py.isspace c = true) →
  let failed := ([StError "Please enter valid integers."], Some tt) in
  section2 w [] = failed
  ∧ section2 (w +:+ "," +:+ post) [] = failed
  ∧ section2 (pre +:+ "," +:+ w) [] = failed
  ∧ section2 (pre +:+ "," +:+ w +:+ "," +:+ post) [] = failed.
Proof.
  intros Hw failed. pose proof (spaces_no_comma w Hw) as Hcomma.
  pose proof (int_blank w Hw) as Hbad. subst failed. rewrite !comma_app.
  assert (w ∈ Py.split "," (w +:+ String "," post)) as Hhead.
  { rewrite split_app_sep by done. apply list_elem_of_here. }
  repeat split.
  - apply (section2_rejected _ w); [|done].
    rewrite split_no_sep by done. apply list_elem_of_here.
  - by apply (section2_rejected _ w).
  - apply (section2_rejected _ w); [|done].
    apply elem_of_tail, split_after_comma.
    rewrite split_no_sep by done. apply list_elem_of_here.
  - apply (section2_rejected _ w); [|done].
    by apply elem_of_tail, split_after_comma.
Qed.

Lemma blank_piece_rejected_witness :
  (∀ c, In c (list_ascii_of_string " ") → Py.isspace c = true) ∧
  section2 " " [] = ([StError "Please enter valid integers."], Some tt)
  ∧ section2 (" " +:+ "," +:+ "5") [] = ([StError "Please enter valid integers."], Some tt)
  ∧ section2 ("3" +:+ "," +:+ " ") [] = ([StError "Please enter valid integers."], Some tt)
  ∧ section2 ("3" +:+ "," +:+ " " +:+ "," +:+ "5") [] = ([StError "Please enter valid integers."], Some tt).
Proof.
  assert (∀ c, In c (list_ascii_of_string " ") → Py.isspace c = true) as Hw.
  { simpl. intros c [<-|[]]; reflexivity. }
  split; [exact Hw|]. exact (blank_piece_rejected " " "3" "5" Hw).
Defined.

(** X18: a rejected message does not stop the page.  Whatever the message
    text is, a run with [n >= 4] shows the first two sections and goes on
    to the third section's header; a run with [n < 4] stops at line 44,
    where the control for [k] cannot be created, with an uncaught exception
    and only the first header shown. *)
Theorem app_reaches_third_section (w : world) (i : inputs) :
  (4 ≤ in_n i →
   ∃ body3 out,
     app w i [] =
       ([StHeader header1] ++ (section1 (in_n i) (in_k i) []).1
        ++ [StHeader header2] ++ (section2 (in_msg i) []).1
        ++ StHeader header3 :: body3, out))
  ∧ (in_n i < 4 → app w i [] = ([StHeader header1], None)).
Proof. split; [apply app_page|apply app_stops]. Qed.

Lemma chars_split (sep c : ascii) (s : string) :
  In c (list_ascii_of_string s) → c ≠ sep →
  ∃ t, t ∈ Py.split sep s ∧ In c (list_ascii_of_string t).
Proof.
  intros Hin Hc. induction s as [|c' r IH]; [done|]. simpl in *.
  pose proof (split_nonempty sep r) as Hne.
  destruct (Ascii.eqb_spec c' sep) as [->|Hc'].
  - destruct Hin as [->|Hin]; [done|].
    destruct (IH Hin) as (t & Ht & Hct). exists t.
    split; [by apply list_elem_of_further|done].
  - destruct (Py.split sep r) as [|t0 ts]; [done|].
    destruct Hin as [->|Hin].
    + exists (String c t0). split; [apply list_elem_of_here|by left].
    + destruct (IH Hin) as (t & Ht & Hct).
      apply elem_of_cons in Ht as [->|Ht].
      * exists (String c' t0). split; [apply list_elem_of_here|by right].
      * exists t. split; [by apply list_elem_of_further|done].
Qed.

Lemma chars_lstrip (c : ascii) (s : string) :
  In c (list_ascii_of_string s) → Py.isspace c = false →
  In c (list_ascii_of_string (Py.lstrip s)).
Proof.
  intros Hin Hc. induction s as [|c' r IH]; [done|]. simpl in *.
  destruct (Py.isspace c') eqn:Hc'; [|done].
  destruct Hin as [->|Hin]; [congruence|by apply IH].
Qed.

Lemma chars_rstrip (c : ascii) (s : string) :
  In c (list_ascii_of_string s) → Py.isspace c = false →
  In c (list_ascii_of_string (Py.rstrip s)).
Proof.
  intros Hin Hc. induction s as [|c' r IH]; [done|]. simpl in *.
  destruct Hin as [->|Hin].
  - destruct (Py.rstrip r); [rewrite Hc|]; by left.
  - specialize (IH Hin). destruct (Py.rstrip r); [done|by right].
Qed.

(** X19: a character that is neither a digit, an underscore, a sign, a
    comma nor white space, anywhere in the text, makes the section fail
    with the error banner alone. *)
Theorem foreign_character_rejected (msg : string) (c : ascii) :
  In c (list_ascii_of_string msg) →
  Py.digit_value c = None → Py.isspace c = false →
  c ≠ "_"%char → c ≠ "+"%char → c ≠ "-"%char → c ≠ ","%char →
  section2 msg [] = ([StError "Please enter valid integers."], Some tt).
Proof.
  intros Hin Hd Hsp Hu Hplus Hminus Hcomma.
  destruct (chars_split "," c msg Hin Hcomma) as (tok & Htok & Hc).
  apply (section2_rejected msg tok Htok).
  apply (int_foreign c); [|done..].
  unfold Py.strip.
  apply chars_rstrip; [|done]. apply chars_lstrip; [|done].
  apply chars_rstrip; [|done]. by apply chars_lstrip.
Qed.

Lemma foreign_character_rejected_witness :
  In "x"%char (list_ascii_of_string "3,5x,2") ∧
  section2 "3,5x,2" [] = ([StError "Please enter valid integers."], Some tt).
Proof.
  assert (In "x"%char (list_ascii_of_string "3,5x,2")) as Hin.
  { simpl. tauto. }
  split; [exact Hin|].
  apply (foreign_character_rejected "3,5x,2" "x" Hin);
    (reflexivity || discriminate).
Defined.

(** X20: the handler can run after results were shown.  When the message
    parses but some entry of its code word has more than [max_str_digits]
    digits, line 87 raises after the caption, the polynomial and the
    evaluation points are on the page, and the error banner follows them;
    the code word is not shown. *)
Theorem section2_partial_page (msg : string) (message cw : list Z) (v : Z) :
  parse_message msg = Some message →
  codeword message = Some cw → v ∈ cw → ¬ Py.fits v →
  section2 msg [] =
    ([StWrite "**Message Polynomial:**";
      StCode ("m(x) = " +:+ Py.join " + "
                (imap (λ j a, Py.str a +:+ "x^" +:+ Py.str (Z.of_nat j)) message));
      StWriteList "**Evaluation Points:**" (eval_points message);
      StError "Please enter valid integers."],
     Some tt).
Proof.
  intros Hp Hcw Hin Hv. rewrite codeword_fmap in Hcw. injection Hcw as <-.
  by rewrite (section2_parsed _ _ _ Hp), (fmt_list_too_long _ v Hin Hv).
Qed.

Lemma codeword_linear_term (a : Z) :
  codeword [0; a] = Some [a; 2 * a; 3 * a; 4 * a].
Proof.
  rewrite codeword_fmap. unfold eval_points. simpl.
  rewrite !poly_value_cons, !poly_value_nil. do 5 f_equal; lia.
Qed.

Lemma section2_partial_page_witness :
  let a := 9 * 10 ^ 4299 in
  let msg := Py.join "," (Py.str <$> [0; a]) in
  parse_message msg = Some [0; a]
  ∧ codeword [0; a] = Some [a; 2 * a; 3 * a; 4 * a]
  ∧ 2 * a ∈ [a; 2 * a; 3 * a; 4 * a] ∧ ¬ Py.fits (2 * a) ∧
  section2 msg [] =
    ([StWrite "**Message Polynomial:**";
      StCode ("m(x) = " +:+ Py.join " + "
                (imap (λ j a, Py.str a +:+ "x^" +:+ Py.str (Z.of_nat j)) [0; a]));
      StWriteList "**Evaluation Points:**" (eval_points [0; a]);
      StError "Please enter valid integers."],
     Some tt).
Proof.
  intros a msg. set (p := 10 ^ 4299) in *.
  assert (0 < p) as Hpos by (apply Z.pow_pos_nonneg; lia).
  assert (10 ^ Z.of_nat Py.max_str_digits = 10 * p) as Hlim.
  { change (Z.of_nat Py.max_str_digits) with (Z.succ 4299).
    apply Z.pow_succ_r. lia. }
  clearbody p.
  assert (Forall Py.fits [0; a]) as Hfit.
  { repeat (constructor; [apply fits_iff; rewrite Hlim; subst a; lia|]).
    constructor. }
  assert (parse_message msg = Some [0; a]) as Hp.
  { apply (parse_join_str [0; a]); [discriminate|exact Hfit]. }
  pose proof (codeword_linear_term a) as Hcw.
  assert (2 * a ∈ [a; 2 * a; 3 * a; 4 * a]) as Hin
    by (apply list_elem_of_further, list_elem_of_here).
  assert (¬ Py.fits (2 * a)) as Hv.
  { intros Hfit2%fits_iff. rewrite Hlim in Hfit2. subst a. lia. }
  split; [exact Hp|]. split; [exact Hcw|]. split; [exact Hin|].
  split; [exact Hv|].
  exact (section2_partial_page msg [0; a] _ (2 * a) Hp Hcw Hin Hv).
Defined.
